(** * Verification of the frequency-sweep combination tool and viewer

    Shallow embedding of [combine_freq.py] (the batch tool) and of the
    aggregation part of [freq-filter-dataviz.py] (the viewer).

    Conventions of the embedding:
    - a Python [str] is a [string] (a sequence of 8-bit characters);
    - a Python [int] is a [Z];
    - a Python [dict] is an insertion-ordered association list with unique
      keys ([Dict.set] replaces in place or appends), a Python [set] of
      strings is a [gset string];
    - an exception is an explicit [Raised] outcome or a [None] result;
    - the [re] module is embedded as a backtracking matcher over the
      fragment of regular expressions the two programs use;
    - numeric table cells are exact rationals ([Q]); a missing cell (NaN)
      is an absent key of the row or a [None]. *)

From Stdlib Require Import Ascii ZArith QArith Qabs DecimalString Lia.
From Stdlib Require Import Reals Lra Qreals.
From stdpp Require Import base list gmap strings sorting.

Local Open Scope Z_scope.

(** ** Strings *)

Module Str.

Lemma app_nil_l (s : string) : "" +:+ s = s.
Proof. reflexivity. Qed.

Lemma app_cons (a : ascii) (s t : string) :
  String a s +:+ t = String a (s +:+ t).
Proof. reflexivity. Qed.

Lemma app_nil_r (s : string) : s +:+ "" = s.
Proof. induction s as [|a s IH]; [done|]. by rewrite app_cons, IH. Qed.

Lemma app_assoc (s t u : string) : (s +:+ t) +:+ u = s +:+ t +:+ u.
Proof. induction s as [|a s IH]; [done|]. by rewrite !app_cons, IH. Qed.

(** All characters of [s] satisfy [p]. *)
Fixpoint all (p : ascii → bool) (s : string) : bool :=
  match s with
  | "" => true
  | String a s' => p a && all p s'
  end.

Lemma all_app p s t : all p (s +:+ t) = all p s && all p t.
Proof.
  induction s as [|a s IH]; [done|].
  rewrite app_cons. simpl. rewrite IH. by destruct (p a).
Qed.

(** [strip_prefix pre s] is what follows [pre] in [s], when [s] starts
    with [pre]. *)
Fixpoint strip_prefix (pre s : string) : option string :=
  match pre with
  | "" => Some s
  | String b pre' =>
      match s with
      | String a s' => if bool_decide (a = b) then strip_prefix pre' s' else None
      | "" => None
      end
  end.

(** [str.startswith], [str.endswith] *)
Definition startswith (s pre : string) : bool :=
  match strip_prefix pre s with Some _ => true | None => false end.

Definition endswith (s suf : string) : bool :=
  startswith (String.rev s) (String.rev suf).

(** [sub in s] *)
Fixpoint contains (sub s : string) : bool :=
  startswith s sub ||
  match s with
  | "" => false
  | String _ s' => contains sub s'
  end.

End Str.

(** ** The fragment of Python's [re] used by the programs *)

Module Re.

(** Character classes: [\d], [[^a]] and [.] (no DOTALL flag: every
    character but the newline). *)
Inductive cclass : Set :=
| Digit
| Not (a : ascii)
| Dot.

(** The value of a decimal digit, by its character code (48 to 57). *)
Definition digit_value (a : ascii) : option Z :=
let code := Z.of_N (N_of_ascii a) in
if (48 <=? code) && (code <=? 57) then Some (code - 48) else None.

Definition is_digit (a : ascii) : bool :=
  match digit_value a with Some _ => true | None => false end.

Definition cmatch (c : cclass) (a : ascii) : bool :=
  match c with
  | Digit => is_digit a
  | Not b => negb (bool_decide (a = b))
  | Dot => negb (bool_decide (a = "010"%char))
  end.

(** Patterns: a literal, [c{n}], greedy [c+], lazy [c+?], concatenation
    and a named group [(?P<name>r)]. *)
Inductive regex : Set :=
| Lit (l : string)
| Rep (c : cclass) (n : nat)
| Plus (c : cclass)
| PlusLazy (c : cclass)
| Seq (r1 r2 : regex)
| Group (name : string) (r : regex).

(** The captures of a match, in the order the groups close. *)
Definition captures : Type := list (string * string).

Section Matcher.
Context {R : Type}.

(** A continuation receives the text just matched and what is left of
    the subject; [None] makes the matcher backtrack. *)

Definition lit (l s : string) (k : string → string → option R) : option R :=
  match Str.strip_prefix l s with
  | Some s' => k l s'
  | None => None
  end.

Fixpoint rep (c : cclass) (n : nat) (s : string)
    (k : string → string → option R) : option R :=
  match n with
  | O => k "" s
  | S n' =>
      match s with
      | String a s' =>
          if cmatch c a then rep c n' s' (λ m r, k (String a m) r) else None
      | "" => None
      end
  end.

(** Greedy: first try to take more characters, then fewer. *)
Fixpoint plus_greedy (c : cclass) (s : string)
    (k : string → string → option R) : option R :=
  match s with
  | String a s' =>
      if cmatch c a then
        match plus_greedy c s' (λ m r, k (String a m) r) with
        | Some x => Some x
        | None => k (String a "") s'
        end
      else None
  | "" => None
  end.

(** Lazy: first try to stop, then take one more character. *)
Fixpoint plus_lazy (c : cclass) (s : string)
    (k : string → string → option R) : option R :=
  match s with
  | String a s' =>
      if cmatch c a then
        match k (String a "") s' with
        | Some x => Some x
        | None => plus_lazy c s' (λ m r, k (String a m) r)
        end
      else None
  | "" => None
  end.

Fixpoint rmatch (r : regex) (s : string) (g : captures)
    (k : string → string → captures → option R) : option R :=
  match r with
  | Lit l => lit l s (λ m s', k m s' g)
  | Rep c n => rep c n s (λ m s', k m s' g)
  | Plus c => plus_greedy c s (λ m s', k m s' g)
  | PlusLazy c => plus_lazy c s (λ m s', k m s' g)
  | Seq r1 r2 =>
      rmatch r1 s g (λ m1 s1 g1,
        rmatch r2 s1 g1 (λ m2 s2 g2, k (m1 +:+ m2) s2 g2))
  | Group name r1 =>
      rmatch r1 s g (λ m s' g', k m s' (g' ++ [(name, m)]))
  end.
End Matcher.

(** [re.compile(r).match(s)] followed by [groupdict()]: anchored at the
    start of [s], not at its end. *)
Definition match_groupdict (r : regex) (s : string) : option captures :=
  rmatch r s [] (λ _ _ g, Some g).

(** [re.findall(r, s)] for a pattern without groups that never matches
    the empty string: scan from the left, take the first match at the
    leftmost position, resume after it. *)
Fixpoint findall_fuel (fuel : nat) (r : regex) (s : string) : list string :=
  match fuel with
  | O => []
  | S fuel' =>
      match rmatch r s [] (λ m s' _, Some (m, s')) with
      | Some (m, s') => m :: findall_fuel fuel' r s'
      | None =>
          match s with
          | "" => []
          | String _ s' => findall_fuel fuel' r s'
          end
      end
  end.

Definition findall (r : regex) (s : string) : list string :=
  findall_fuel (S (String.length s)) r s.

End Re.

Declare Scope regex_scope.
Delimit Scope regex_scope with regex.
Bind Scope regex_scope with Re.regex.
Infix "·" := Re.Seq (at level 65, right associativity) : regex_scope.

(** ** [parse_filename] (identical in both programs) *)

Definition pattern : Re.regex :=
  (Re.Group "date"
     (Re.Rep Re.Digit 4 · Re.Lit "-" · Re.Rep Re.Digit 2 · Re.Lit "-" ·
      Re.Rep Re.Digit 2) · Re.Lit "_" ·
   Re.Group "device_chemistry" (Re.Plus (Re.Not "-")) · Re.Lit "-" ·
   Re.Group "device_pixel" (Re.Plus (Re.Not "_")) · Re.Lit "_" ·
   Re.Group "device_configuration" (Re.PlusLazy Re.Dot) · Re.Lit "-config_" ·
   Re.Group "device_degradation" (Re.Plus (Re.Not "_")) · Re.Lit "_" ·
   Re.Group "frequency_range" (Re.Plus (Re.Not "_")) · Re.Lit "_" ·
   Re.Group "datapoint_capture" (Re.Plus (Re.Not "_")) · Re.Lit "_" ·
   Re.Group "voltage_offset" (Re.Plus (Re.Not "_")) · Re.Lit "_" ·
   Re.Group "voltage_amplitude" (Re.Plus (Re.Not "V")) · Re.Lit "Vpk")%regex.

Definition parse_filename (filename : string) : option Re.captures :=
  Re.match_groupdict pattern filename.

(** ** Python dictionaries: insertion-ordered, unique keys *)

Module Dict.
Section Dict.
Context {K V : Type} `{EqDecision K}.

(** [d[k]] ([None]: KeyError) and [d.get(k)] *)
Fixpoint get (k : K) (d : list (K * V)) : option V :=
  match d with
  | [] => None
  | (k', v) :: d' => if decide (k = k') then Some v else get k d'
  end.

(** [d[k] = v]: an existing key keeps its position *)
Fixpoint set (k : K) (v : V) (d : list (K * V)) : list (K * V) :=
  match d with
  | [] => [(k, v)]
  | (k', v') :: d' =>
      if decide (k = k') then (k, v) :: d' else (k', v') :: set k v d'
  end.

Definition keys (d : list (K * V)) : list K := d.*1.

(** [dict(pairs)] and dictionary comprehensions *)
Definition of_pairs (l : list (K * V)) : list (K * V) :=
  foldl (λ d kv, set kv.1 kv.2 d) [] l.
End Dict.
End Dict.

(** ** Integers in tokens *)

(** [int(num)] on a string of decimal digits; the programs apply it to the
    results of [re.findall(r"\d+", _)] only. *)
Definition int_of_digits (num : string) : Z :=
  (fix go (acc : Z) (s : string) : Z :=
     match s with
     | "" => acc
     | String a s' => go (10 * acc + default 0 (Re.digit_value a)) s'
     end) 0 num.

(** [f"{n}"] for an [int] *)
Definition str_of_int (n : Z) : string := NilZero.string_of_int (Z.to_int n).

Definition sum_list (l : list Z) : Z := foldr Z.add 0 l.
Definition max_list (l : list Z) : Z := foldr Z.max 0 l.

Definition ints_in (token : string) : list Z :=
  int_of_digits <$> Re.findall (Re.Plus Re.Digit) token.

Definition sum_datapoint_capture (datapoint_captures : list string) : Z :=
  foldl (λ total dc, total + sum_list (ints_in dc)) 0 datapoint_captures.

Definition find_highest_degradation (device_degradations : list string) : Z :=
  foldl (λ highest dd,
           match ints_in dd with
           | [] => highest
           | n :: numbers => Z.max highest (foldl Z.max n numbers)
           end) 0 device_degradations.

(** ** Dates *)

(** [datetime.strptime(x, "%Y-%m-%d")] on the tokens the parser captures
    as dates (four digits, two digits, two digits): the three numbers when
    they form a calendar date of the proleptic Gregorian calendar with a
    year from 1 on, and [None] (ValueError) otherwise. *)
Definition is_leap (y : Z) : bool :=
  ((y mod 4 =? 0) && negb (y mod 100 =? 0)) || (y mod 400 =? 0).

Definition days_in_month (y m : Z) : Z :=
  if m =? 2 then (if is_leap y then 29 else 28)
  else if (m =? 4) || (m =? 6) || (m =? 9) || (m =? 11) then 30
  else 31.

Definition date_shape (x : string) : option (string * string * string) :=
  match x with
  | String y1 (String y2 (String y3 (String y4 (String "-"
      (String m1 (String m2 (String "-" (String d1 (String d2 ""))))))))) =>
      let y := String y1 (String y2 (String y3 (String y4 ""))) in
      let m := String m1 (String m2 "") in
      let d := String d1 (String d2 "") in
      if Str.all Re.is_digit (y +:+ m +:+ d) then Some (y, m, d) else None
  | _ => None
  end.

Definition strptime_ymd (x : string) : option (Z * Z * Z) :=
  '(ys, ms, ds) ← date_shape x;
  let y := int_of_digits ys in
  let m := int_of_digits ms in
  let d := int_of_digits ds in
  if (1 <=? y) && (1 <=? m) && (m <=? 12) && (1 <=? d) && (d <=? days_in_month y m)
  then Some (y, m, d) else None.

Definition date_lt (a b : Z * Z * Z) : bool :=
  let '(y1, m1, d1) := a in
  let '(y2, m2, d2) := b in
  (y1 <? y2) || ((y1 =? y2) && ((m1 <? m2) || ((m1 =? m2) && (d1 <? d2)))).

(** [max(dates, key=lambda x: datetime.strptime(x, "%Y-%m-%d"))]: every
    key is computed, the first of the latest dates is returned. *)
Definition newest_of (dates : list string) : option string :=
  keyed ← mapM (λ x, (λ t, (x, t)) <$> strptime_ymd x) dates;
  match keyed with
  | [] => None
  | first :: others =>
      Some (foldl (λ best cand, if date_lt best.2 cand.2 then cand else best)
                  first others).1
  end.

(** ** The part of pandas the programs use *)

Module Pandas.

(** A table: the column labels and the rows, a row mapping a column
    label to its cell. A label without a cell in a row is a missing
    value (NaN) of that row. *)
Record DataFrame : Type := mkDataFrame {
  columns : list string;
  rows : list (gmap string Q)
}.

(** Labels in the order of their first appearance. *)
Definition uniq (l : list string) : list string :=
  foldl (λ acc c, if decide (c ∈ acc) then acc else acc ++ [c]) [] l.

(** [pd.concat(dfs, ignore_index=True)]; ValueError on no frame. *)
Definition concat (dfs : list DataFrame) : option DataFrame :=
  match dfs with
  | [] => None
  | _ => Some {| columns := uniq (mjoin (columns <$> dfs));
                 rows := mjoin (rows <$> dfs) |}
  end.

Definition sum_Q (xs : list Q) : Q := foldr Qplus 0%Q xs.

(** [mean] of the cells present (skipna); missing when there is none. *)
Definition mean (xs : list Q) : option Q :=
  match xs with
  | [] => None
  | _ => Some (sum_Q xs / inject_Z (Z.of_nat (length xs)))%Q
  end.

(** The values of a list, ascending and without repetition. *)
Fixpoint insert_uniq {A} (cmp : A → A → comparison) (x : A) (l : list A)
    : list A :=
  match l with
  | [] => [x]
  | y :: l' =>
      match cmp x y with
      | Lt => x :: l
      | Eq => l
      | Gt => y :: insert_uniq cmp x l'
      end
  end.

Definition sort_uniq {A} (cmp : A → A → comparison) (l : list A) : list A :=
  foldr (insert_uniq cmp) [] l.

#[global] Instance Qeq_decision (a b : Q) : Decision (a == b)%Q :=
  Qeq_dec a b.

(** The rows whose cell under [key] equals [f]. *)
Definition key_is (key : string) (f : Q) (r : gmap string Q) : Prop :=
  match r !! key with
  | Some g => (g == f)%Q
  | None => False
  end.

#[global] Instance key_is_dec key f r : Decision (key_is key f r).
Proof. unfold key_is. destruct (r !! key); apply _. Defined.

Definition cluster (key : string) (f : Q) (rs : list (gmap string Q))
    : list (gmap string Q) :=
  filter (key_is key f) rs.

(** One aggregated row: every column of [cols] reduced by [agg] over
    the cells present in [rs]. *)
Definition aggregate (agg : list Q → option Q) (cols : list string)
    (rs : list (gmap string Q)) : gmap string Q :=
  list_to_map (omap (λ c, (λ v, (c, v)) <$> agg (omap (λ r, r !! c) rs)) cols).

(** [df.groupby(key, as_index=False).mean()]: rows without a key are
    dropped, the groups come in ascending key order, the key is the
    first column. KeyError when there is no such column. *)
Definition groupby_mean (key : string) (df : DataFrame) : option DataFrame :=
  if decide (key ∈ columns df) then
    let others := filter (λ c, c ≠ key) (columns df) in
    Some {| columns := key :: others;
            rows := (λ f, <[key := f]> (aggregate mean others
                                          (cluster key f (rows df))))
                    <$> sort_uniq Qcompare (omap (λ r, r !! key) (rows df)) |}
  else None.

(** [df.sort_values(by=key)]: ascending, rows without a key last. *)
Definition key_le (key : string) (r1 r2 : gmap string Q) : bool :=
  match r1 !! key, r2 !! key with
  | Some a, Some b => Qle_bool a b
  | None, Some _ => false
  | _, None => true
  end.

Fixpoint insert_sorted {A} (le : A → A → bool) (x : A) (l : list A) : list A :=
  match l with
  | [] => [x]
  | y :: l' => if le x y then x :: l else y :: insert_sorted le x l'
  end.

Definition sort_by {A} (le : A → A → bool) (l : list A) : list A :=
  foldr (insert_sorted le) [] l.

Definition sort_values (key : string) (df : DataFrame) : option DataFrame :=
  if decide (key ∈ columns df) then
    Some {| columns := columns df; rows := sort_by (key_le key) (rows df) |}
  else None.

End Pandas.

Import Pandas.

(** * The batch tool, [combine_freq.py] *)

Definition frequency_column : string := "Oscilator_frequency (Hz)".

Definition combine_dataframes (dfs : list DataFrame) : option DataFrame :=
  combined_df ← concat dfs;
  combined_df ← groupby_mean frequency_column combined_df;
  sort_values frequency_column combined_df.

(** [txt_files] and [parsed_files], over the result of [os.listdir]. A
    [dict] is true when it is not empty. *)
Definition txt_files (listdir : list string) : list string :=
  filter (λ f, Is_true (Str.endswith f ".txt")) listdir.

Definition truthy (o : option Re.captures) : bool :=
  match o with
  | Some (_ :: _) => true
  | _ => false
  end.

Definition parsed_files (listdir : list string) : list (string * Re.captures) :=
  foldl (λ d file,
           if truthy (parse_filename file)
           then match parse_filename file with
                | Some characteristics => Dict.set file characteristics d
                | None => d
                end
           else d)
        [] (txt_files listdir).

(** The grouping loop, for a key computed from the characteristics. *)
Definition group_files {K} `{EqDecision K} (key_of : Re.captures → K)
    (parsed : list (string * Re.captures)) : list (K * list string) :=
  foldl (λ grouped fc,
           let key := key_of fc.2 in
           Dict.set key (default [] (Dict.get key grouped) ++ [fc.1]) grouped)
        [] parsed.

(** [tuple((k, v) for k, v in characteristics.items() if k not in excluded)] *)
Definition group_key (excluded : list string) (characteristics : Re.captures)
    : list (string * string) :=
  filter (λ kv, kv.1 ∉ excluded) characteristics.

Definition batch_excluded : list string :=
  ["frequency_range"; "datapoint_capture"; "device_degradation"; "date"].

Definition grouped_files (parsed : list (string * Re.captures))
    : list (list (string * string) * list string) :=
  group_files (group_key batch_excluded) parsed.

Definition required_ranges : gset string :=
  {[ "500k-5kHz"; "5k-200Hz"; "200-1Hz" ]}.

Definition combined_freq_range : string := "500k-1Hz".

Definition new_filename (newest_date chemistry pixel configuration : string)
    (highest_degradation total_datapoint_capture : Z)
    (voltage_offset voltage_amplitude : string) : string :=
  newest_date +:+ "_" +:+
  chemistry +:+ "-" +:+ pixel +:+ "_" +:+
  configuration +:+ "-config_" +:+
  str_of_int highest_degradation +:+ "daydeg_" +:+
  combined_freq_range +:+ "_" +:+
  str_of_int total_datapoint_capture +:+ "p-1s_" +:+
  voltage_offset +:+ "_" +:+
  voltage_amplitude +:+ "Vpk.txt".

(** What the body of the combine loop does with one group. *)
Inductive outcome : Type :=
| Skipped
| Created (name : string) (combined_df : DataFrame)
| Raised.

Section Batch.
(** [load_data]: the table a file of [raw_data] holds, [None] when
    reading it raises. *)
Variable load_data : string → option DataFrame.

Definition field (parsed : list (string * Re.captures)) (name file : string)
    : option string :=
  Dict.get file parsed ≫= Dict.get name.

Definition combine (parsed : list (string * Re.captures))
    (key : list (string * string)) (files : list string)
    : option (string * DataFrame) :=
  dfs ← mapM load_data files;
  combined_df ← combine_dataframes dfs;
  let characteristics := Dict.of_pairs key in
  datapoint_captures ← mapM (field parsed "datapoint_capture") files;
  let total_datapoint_capture := sum_datapoint_capture datapoint_captures in
  dates ← mapM (field parsed "date") files;
  newest_date ← newest_of dates;
  device_degradations ← mapM (field parsed "device_degradation") files;
  let highest_degradation := find_highest_degradation device_degradations in
  chemistry ← Dict.get "device_chemistry" characteristics;
  pixel ← Dict.get "device_pixel" characteristics;
  configuration ← Dict.get "device_configuration" characteristics;
  voltage_offset ← Dict.get "voltage_offset" characteristics;
  voltage_amplitude ← Dict.get "voltage_amplitude" characteristics;
  Some (new_filename newest_date chemistry pixel configuration
          highest_degradation total_datapoint_capture
          voltage_offset voltage_amplitude, combined_df).

Definition combine_group (parsed : list (string * Re.captures))
    (key : list (string * string)) (files : list string) : outcome :=
  match mapM (field parsed "frequency_range") files with
  | None => Raised
  | Some frequency_ranges =>
      if decide (list_to_set frequency_ranges = required_ranges) then
        match combine parsed key files with
        | Some (name, combined_df) => Created name combined_df
        | None => Raised
        end
      else Skipped
  end.

(** The combine loop: the files written, in order, and whether the loop
    ran to its end ([false]: an exception stopped it). *)
Fixpoint combine_loop (parsed : list (string * Re.captures))
    (groups : list (list (string * string) * list string))
    : list (string * DataFrame) * bool :=
  match groups with
  | [] => ([], true)
  | (key, files) :: groups' =>
      match combine_group parsed key files with
      | Skipped => combine_loop parsed groups'
      | Created name combined_df =>
          let '(written, completed) := combine_loop parsed groups' in
          ((name, combined_df) :: written, completed)
      | Raised => ([], false)
      end
  end.

Definition run (listdir : list string) : list (string * DataFrame) * bool :=
  let parsed := parsed_files listdir in
  combine_loop parsed (grouped_files parsed).
End Batch.

(** * The viewer, [freq-filter-dataviz.py]: [group_data] *)

Module Viewer.

Definition primary_channel : string := "Demod_4_X_A (V)".
Definition amplitude_column : string := "voltage_amplitude".
Definition chemistry_column : string := "device_chemistry".
Definition normalized_column : string := "Normalized_Vout (%)".

(** [(x / (a / 1.4142)) * 100] *)
Definition normalized_vout (x a : Q) : Q := ((x / (a / 1.4142)) * 100)%Q.

(** A row of a table that carries the chemistry, its one column of
    strings, next to the numeric cells. *)
Record labelled : Type := mkLabelled {
  chemistry : string;
  cells : gmap string Q
}.

Record LabelledFrame : Type := mkLabelledFrame {
  lcolumns : list string;
  lrows : list labelled
}.

Definition add_column (c : string) (cols : list string) : list string :=
  if decide (c ∈ cols) then cols else cols ++ [c].

Definition viewer_excluded : list string :=
  ["device_chemistry"; "date"; "device_degradation"; "device_pixel";
   "voltage_amplitude"].

(** [tuple(metadata[k] for k in metadata if k not in excluded)] *)
Definition viewer_key (excluded : list string) (metadata : Re.captures)
    : list string :=
  (group_key excluded metadata).*2.

(** The index of the statistics tables. *)
Definition index : Type := string * Q * Q.

Definition index_compare (i j : index) : comparison :=
  match String.compare i.1.1 j.1.1 with
  | Eq => match Qcompare i.1.2 j.1.2 with
          | Eq => Qcompare i.2 j.2
          | c => c
          end
  | c => c
  end.

Definition index_of (r : labelled) : option index :=
  a ← cells r !! amplitude_column;
  f ← cells r !! frequency_column;
  Some (chemistry r, a, f).

Definition index_is (i : index) (r : labelled) : Prop :=
  match index_of r with
  | Some j => index_compare j i = Eq
  | None => False
  end.

#[global] Instance index_is_dec i r : Decision (index_is i r).
Proof. unfold index_is. destruct (index_of r); apply _. Defined.

Section GroupData.
(** [load_data] as in the batch tool; [float(s)], [None] when it
    raises ValueError; the square root of the standard deviation. *)
Variable load_data : string → option DataFrame.
Variable float : string → option Q.
Variable sqrt : Q → Q.

(** The three column assignments of the first loop. A quotient by a
    zero amplitude is infinite or NaN, which a rational cell cannot
    hold: the cell stays missing. *)
Definition normalize_row (amplitude : Q) (chem : string)
    (r : gmap string Q) : labelled :=
  let r := <[amplitude_column := amplitude]> r in
  let r := delete chemistry_column r in
  {| chemistry := chem;
     cells := match r !! primary_channel with
              | Some x =>
                  if decide (amplitude == 0)%Q
                  then delete normalized_column r
                  else <[normalized_column := normalized_vout x amplitude]> r
              | None => delete normalized_column r
              end |}.

Definition prepare (metadata : Re.captures) (df : DataFrame)
    : option LabelledFrame :=
  amplitude ← Dict.get "voltage_amplitude" metadata ≫= float;
  chem ← Dict.get "device_chemistry" metadata;
  let cols := add_column chemistry_column
                (add_column amplitude_column (columns df)) in
  if decide (primary_channel ∈ cols) then
    Some {| lcolumns := add_column normalized_column cols;
            lrows := normalize_row amplitude chem <$> rows df |}
  else None.

Definition grouped_data (parsed : list (string * Re.captures))
    : option (list (list string * list LabelledFrame)) :=
  foldl (λ acc fm,
           grouped ← acc;
           df ← load_data fm.1;
           df ← prepare fm.2 df;
           let key := viewer_key viewer_excluded fm.2 in
           Some (Dict.set key (default [] (Dict.get key grouped) ++ [df])
                   grouped))
        (Some []) parsed.

(** Sample standard deviation (ddof = 1) of the cells present:
    missing when fewer than two are. *)
Definition std (xs : list Q) : option Q :=
  match xs with
  | [] | [_] => None
  | _ =>
      let n := inject_Z (Z.of_nat (length xs)) in
      let m := (sum_Q xs / n)%Q in
      Some (sqrt (sum_Q ((λ x, (x - m) * (x - m))%Q <$> xs) / (n - 1)))%Q
  end.

(** [combined_df.groupby([chemistry, amplitude, frequency])[numeric_cols]]
    reduced by [agg]. *)
Definition groupby_stat (agg : list Q → option Q) (numeric_cols : list string)
    (rs : list labelled) : list (index * gmap string Q) :=
  (λ i, (i, aggregate agg numeric_cols (cells <$> filter (index_is i) rs)))
  <$> sort_uniq index_compare (omap index_of rs).

Definition statistics (dfs : list LabelledFrame)
    : option (list (index * gmap string Q) * list (index * gmap string Q)) :=
  match dfs with
  | [] => None
  | _ =>
      let cols := uniq (mjoin (lcolumns <$> dfs)) in
      let rs := mjoin (lrows <$> dfs) in
      if decide (frequency_column ∈ cols) then
        let numeric_cols := filter (λ c, c ≠ chemistry_column) cols in
        Some (groupby_stat mean numeric_cols rs,
              groupby_stat std numeric_cols rs)
      else None
  end.

Definition group_data (parsed : list (string * Re.captures))
    : option (list (list string *
                (list (index * gmap string Q) * list (index * gmap string Q)))) :=
  grouped ← grouped_data parsed;
  mapM (λ kd, (λ res, (kd.1, res)) <$> statistics kd.2) grouped.
End GroupData.

(** ** The traces of the charts *)

(** [df.xs((chemistry, voltage), level=["device_chemistry",
    "voltage_amplitude"])]: the rows of that chemistry and amplitude, in
    the order of the table; KeyError when there is none. *)
Definition xs (chemistry : string) (voltage : Q)
    (df : list (index * gmap string Q)) : option (list (gmap string Q)) :=
  match filter (λ e : index * gmap string Q,
                  e.1.1.1 = chemistry ∧ (e.1.1.2 == voltage)%Q) df with
  | [] => None
  | selected => Some selected.*2
  end.

(** [df[column]], for a table with the columns [columns]: the cells of
    the column, a missing value as [None]; KeyError when the table has
    no such column. *)
Definition getitem (columns : list string) (column : string)
    (df : list (gmap string Q)) : option (list (option Q)) :=
  if decide (column ∈ columns) then Some ((λ r, r !! column) <$> df) else None.

(** The arguments [add_scatter] is called with. *)
Record scatter : Type := mkScatter {
  x : list (option Q);
  y : list (option Q);
  error_y_array : option (list (option Q));
  error_y_visible : bool
}.

(** The body of the loops over the selected chemistries, and over the
    selected amplitudes: the trace of one chemistry and amplitude, from
    the two tables with the columns [columns]. *)
Definition add_scatter (columns : list string) (show_error_bars : bool)
    (mean_df std_df : list (index * gmap string Q))
    (chemistry : string) (selected_voltage : Q) (y_column : string)
    : option scatter :=
  mean_df_selected ← xs chemistry selected_voltage mean_df;
  std_df_selected ← xs chemistry selected_voltage std_df;
  x ← getitem columns frequency_column mean_df_selected;
  y ← getitem columns y_column mean_df_selected;
  array ← (if show_error_bars
           then Some <$> getitem columns y_column std_df_selected
           else Some None);
  Some {| x := x; y := y; error_y_array := array;
          error_y_visible := show_error_bars |}.

End Viewer.

(** * Specification-level notions *)

(** What a pattern can match, read declaratively: the text and the
    captures of one way to match, regardless of priorities. *)
Inductive Matches : Re.regex → string → Re.captures → Prop :=
| M_Lit l : Matches (Re.Lit l) l []
| M_Rep c n m :
    String.length m = n → Is_true (Str.all (Re.cmatch c) m) →
    Matches (Re.Rep c n) m []
| M_Plus c m :
    m ≠ "" → Is_true (Str.all (Re.cmatch c) m) → Matches (Re.Plus c) m []
| M_PlusLazy c m :
    m ≠ "" → Is_true (Str.all (Re.cmatch c) m) → Matches (Re.PlusLazy c) m []
| M_Seq r1 r2 m1 m2 g1 g2 :
    Matches r1 m1 g1 → Matches r2 m2 g2 →
    Matches (Re.Seq r1 r2) (m1 +:+ m2) (g1 ++ g2)
| M_Group name r m g :
    Matches r m g → Matches (Re.Group name r) m (g ++ [(name, m)]).

(** * Facts about the matcher *)

Section MatcherFacts.
Context {R : Type}.
Implicit Types (k : string → string → option R) (c : Re.cclass).

Lemma strip_prefix_app l s : Str.strip_prefix l (l +:+ s) = Some s.
Proof.
  induction l as [|b l IH]; [done|].
  rewrite Str.app_cons. simpl. by rewrite bool_decide_eq_true_2.
Qed.

Lemma strip_prefix_Some l s s' :
  Str.strip_prefix l s = Some s' → s = l +:+ s'.
Proof.
  revert s. induction l as [|b l IH]; intros s; simpl.
  - by intros [= ->].
  - destruct s as [|a s]; [done|]. case_bool_decide; [|done].
    intros ->%IH. by subst.
Qed.

Lemma lit_app l s k : Re.lit l (l +:+ s) k = k l s.
Proof. unfold Re.lit. by rewrite strip_prefix_app. Qed.

Lemma lit_Some l s k x :
  Re.lit l s k = Some x → ∃ s', s = l +:+ s' ∧ k l s' = Some x.
Proof.
  unfold Re.lit. destruct (Str.strip_prefix l s) as [s'|] eqn:E; [|done].
  apply strip_prefix_Some in E. eauto.
Qed.

(** A literal fails on a subject that starts with another character. *)
Lemma lit_mismatch b l a s k : a ≠ b → Re.lit (String b l) (String a s) k = None.
Proof. intros. unfold Re.lit. simpl. by rewrite bool_decide_eq_false_2. Qed.

Lemma lit_empty b l k : Re.lit (String b l) "" k = None.
Proof. done. Qed.

Lemma rep_app c n m s k :
  String.length m = n → Is_true (Str.all (Re.cmatch c) m) →
  Re.rep c n (m +:+ s) k = k m s.
Proof.
  revert n k. induction m as [|a m IH]; intros n k <- Hall; [done|].
  simpl in *. apply andb_prop_elim in Hall as [Ha Hm].
  apply Is_true_true in Ha. rewrite Ha. by rewrite IH.
Qed.

Lemma rep_Some c n s k x :
  Re.rep c n s k = Some x →
  ∃ m s', s = m +:+ s' ∧ String.length m = n ∧
          Is_true (Str.all (Re.cmatch c) m) ∧ k m s' = Some x.
Proof.
  revert s k. induction n as [|n IH]; intros s k; simpl.
  - intros. by exists "", s.
  - destruct s as [|a s]; [done|].
    destruct (Re.cmatch c a) eqn:Ha; [|done].
    intros (m & s' & -> & <- & Hm & Hk)%IH.
    exists (String a m), s'. simpl. rewrite Ha. done.
Qed.

Lemma plus_greedy_Some c s k x :
  Re.plus_greedy c s k = Some x →
  ∃ m s', s = m +:+ s' ∧ m ≠ "" ∧
          Is_true (Str.all (Re.cmatch c) m) ∧ k m s' = Some x.
Proof.
  revert k. induction s as [|a s IH]; intros k; simpl; [done|].
  destruct (Re.cmatch c a) eqn:Ha; [|done].
  destruct (Re.plus_greedy c s _) as [y|] eqn:E.
  - intros [= ->]. apply IH in E as (m & s' & -> & _ & Hm & Hk).
    exists (String a m), s'. simpl. by rewrite Ha.
  - intros Hk. exists (String a ""), s. simpl. by rewrite Ha.
Qed.

Lemma plus_lazy_Some c s k x :
  Re.plus_lazy c s k = Some x →
  ∃ m s', s = m +:+ s' ∧ m ≠ "" ∧
          Is_true (Str.all (Re.cmatch c) m) ∧ k m s' = Some x.
Proof.
  revert k. induction s as [|a s IH]; intros k; simpl; [done|].
  destruct (Re.cmatch c a) eqn:Ha; [|done].
  destruct (k (String a "") s) as [y|] eqn:E.
  - intros [= ->]. exists (String a ""), s. simpl. by rewrite Ha.
  - intros (m & s' & -> & _ & Hm & Hk)%IH.
    exists (String a m), s'. simpl. by rewrite Ha.
Qed.

(** The subject does not go on with a character of the class. *)
Definition stops c (s : string) : Prop :=
  match s with
  | "" => True
  | String a _ => Re.cmatch c a = false
  end.

(** A greedy run followed by something that cannot start inside the
    class takes the whole run. *)
Lemma plus_greedy_run c m s k :
  m ≠ "" → Is_true (Str.all (Re.cmatch c) m) → stops c s →
  (∀ m' a s', Re.cmatch c a = true → k m' (String a s') = None) →
  Re.plus_greedy c (m +:+ s) k = k m s.
Proof.
  revert k. induction m as [|a m IH]; intros k Hne Hall Hs Hk; [done|].
  simpl in Hall. apply andb_prop_elim in Hall as [Ha%Is_true_true Hm].
  rewrite Str.app_cons. simpl. rewrite Ha.
  destruct m as [|a' m].
  - rewrite Str.app_nil_l.
    assert (Re.plus_greedy c s (λ m r, k (String a m) r) = None) as ->; [|done].
    destruct s as [|b s]; [done|]. simpl in *. by rewrite Hs.
  - rewrite IH; [|done|done|done|by eauto].
    destruct (k _ s) eqn:E; [done|].
    rewrite ?Str.app_cons. apply Hk.
    simpl in Hm. by apply andb_prop_elim in Hm as [?%Is_true_true _].
Qed.

(** A lazy run stops at the first length the continuation accepts. *)
Lemma plus_lazy_first c m s k x :
  m ≠ "" → Is_true (Str.all (Re.cmatch c) m) →
  (∀ m1 m2, m = m1 +:+ m2 → m1 ≠ "" → m2 ≠ "" → k m1 (m2 +:+ s) = None) →
  k m s = Some x →
  Re.plus_lazy c (m +:+ s) k = Some x.
Proof.
  revert k. induction m as [|a m IH]; intros k Hne Hall Hfirst Hk; [done|].
  simpl in Hall. apply andb_prop_elim in Hall as [Ha%Is_true_true Hm].
  rewrite Str.app_cons. simpl. rewrite Ha.
  destruct m as [|a' m].
  - by rewrite Str.app_nil_l, Hk.
  - assert (k (String a "") (String a' m +:+ s) = None) as ->
      by (apply (Hfirst (String a "") (String a' m)); done).
    apply IH; [done|done| |done].
    intros m1 m2 Heq ??. apply (Hfirst (String a m1) m2); [|done..].
    by rewrite Heq.
Qed.

(** A lazy run succeeds as soon as some length is accepted. *)
Lemma plus_lazy_complete c m s k :
  m ≠ "" → Is_true (Str.all (Re.cmatch c) m) → is_Some (k m s) →
  is_Some (Re.plus_lazy c (m +:+ s) k).
Proof.
  revert k. induction m as [|a m IH]; intros k Hne Hall Hk; [done|].
  simpl in Hall. apply andb_prop_elim in Hall as [Ha%Is_true_true Hm].
  rewrite Str.app_cons. simpl. rewrite Ha.
  destruct (k (String a "") (m +:+ s)) eqn:E; [done|].
  destruct m as [|a' m].
  - rewrite Str.app_nil_l in E. rewrite E in Hk. by destruct Hk.
  - by apply IH.
Qed.

(** The matcher depends on its continuation pointwise only. *)
Lemma rep_ext c n s k1 k2 :
  (∀ m r, k1 m r = k2 m r) → Re.rep c n s k1 = Re.rep c n s k2.
Proof.
  revert s k1 k2. induction n as [|n IH]; intros s k1 k2 Hk; simpl; [done|].
  destruct s as [|a s]; [done|]. destruct (Re.cmatch c a); [|done].
  apply IH. intros; apply Hk.
Qed.

Lemma plus_greedy_ext c s k1 k2 :
  (∀ m r, k1 m r = k2 m r) → Re.plus_greedy c s k1 = Re.plus_greedy c s k2.
Proof.
  revert k1 k2. induction s as [|a s IH]; intros k1 k2 Hk; simpl; [done|].
  destruct (Re.cmatch c a); [|done].
  rewrite (IH _ (λ m r, k2 (String a m) r)), Hk; [done|]. intros; apply Hk.
Qed.

Lemma plus_lazy_ext c s k1 k2 :
  (∀ m r, k1 m r = k2 m r) → Re.plus_lazy c s k1 = Re.plus_lazy c s k2.
Proof.
  revert k1 k2. induction s as [|a s IH]; intros k1 k2 Hk; simpl; [done|].
  destruct (Re.cmatch c a); [|done].
  rewrite (IH _ (λ m r, k2 (String a m) r)), Hk; [done|]. intros; apply Hk.
Qed.

Lemma rmatch_ext r s g (k1 k2 : string → string → Re.captures → option R) :
  (∀ m s' g', k1 m s' g' = k2 m s' g') → Re.rmatch r s g k1 = Re.rmatch r s g k2.
Proof.
  revert s g k1 k2. induction r as [| | | |r1 IH1 r2 IH2|name r IH];
    intros s g k1 k2 Hk; simpl.
  - unfold Re.lit. by destruct (Str.strip_prefix l s).
  - by apply rep_ext.
  - by apply plus_greedy_ext.
  - by apply plus_lazy_ext.
  - apply IH1. intros. apply IH2. intros. apply Hk.
  - apply IH. intros. apply Hk.
Qed.

(** Captures are only ever appended. *)
Lemma rmatch_captures r s g (k : string → string → Re.captures → option R) :
  Re.rmatch r s g k = Re.rmatch r s [] (λ m s' g', k m s' (g ++ g')).
Proof.
  revert s g k. induction r as [| | | |r1 IH1 r2 IH2|name r IH];
    intros s g k; simpl.
  - unfold Re.lit. destruct (Str.strip_prefix l s); by rewrite ?app_nil_r.
  - apply rep_ext. intros. by rewrite app_nil_r.
  - apply plus_greedy_ext. intros. by rewrite app_nil_r.
  - apply plus_lazy_ext. intros. by rewrite app_nil_r.
  - rewrite (IH1 s g). apply rmatch_ext. intros m1 s1 g1.
    rewrite (IH2 s1 (g ++ g1)), (IH2 s1 ([] ++ g1)).
    apply rmatch_ext. intros. simpl. by rewrite app_assoc.
  - rewrite (IH s g), (IH s []). apply rmatch_ext. intros.
    simpl. by rewrite app_assoc.
Qed.

(** Whatever the matcher finds is a match in the declarative sense. *)
Lemma rmatch_sound r s g (k : string → string → Re.captures → option R) x :
  Re.rmatch r s g k = Some x →
  ∃ m s' g', Matches r m g' ∧ s = m +:+ s' ∧ k m s' (g ++ g') = Some x.
Proof.
  revert s g k. induction r as [| | | |r1 IH1 r2 IH2|name r IH];
    intros s g k; simpl.
  - intros (s' & -> & Hk)%lit_Some. exists l, s', [].
    rewrite app_nil_r. eauto using Matches.
  - intros (m & s' & -> & Hl & Hm & Hk)%rep_Some. exists m, s', [].
    rewrite app_nil_r. eauto using Matches.
  - intros (m & s' & -> & Hl & Hm & Hk)%plus_greedy_Some. exists m, s', [].
    rewrite app_nil_r. eauto using Matches.
  - intros (m & s' & -> & Hl & Hm & Hk)%plus_lazy_Some. exists m, s', [].
    rewrite app_nil_r. eauto using Matches.
  - intros (m1 & s1 & g1 & H1 & -> & (m2 & s2 & g2 & H2 & -> & Hk)%IH2)%IH1.
    exists (m1 +:+ m2), s2, (g1 ++ g2).
    rewrite Str.app_assoc, app_assoc. eauto using Matches.
  - intros (m & s' & g' & H1 & -> & Hk)%IH.
    exists m, s', (g' ++ [(name, m)]). rewrite app_assoc. eauto using Matches.
Qed.
End MatcherFacts.

(** * The filename grammar *)

(** The nine fields of a measurement file, as the parser captures them. *)
Record identity : Type := mkIdentity {
  date : string;
  device_chemistry : string;
  device_pixel : string;
  device_configuration : string;
  device_degradation : string;
  frequency_range : string;
  datapoint_capture : string;
  voltage_offset : string;
  voltage_amplitude : string
}.

Definition groupdict_of (i : identity) : Re.captures :=
  [("date", date i);
   ("device_chemistry", device_chemistry i);
   ("device_pixel", device_pixel i);
   ("device_configuration", device_configuration i);
   ("device_degradation", device_degradation i);
   ("frequency_range", frequency_range i);
   ("datapoint_capture", datapoint_capture i);
   ("voltage_offset", voltage_offset i);
   ("voltage_amplitude", voltage_amplitude i)].

(** The text the pattern consumes for these fields. *)
Definition matched_text (i : identity) : string :=
  date i +:+ "_" +:+ device_chemistry i +:+ "-" +:+ device_pixel i +:+ "_" +:+
  device_configuration i +:+ "-config_" +:+ device_degradation i +:+ "_" +:+
  frequency_range i +:+ "_" +:+ datapoint_capture i +:+ "_" +:+
  voltage_offset i +:+ "_" +:+ voltage_amplitude i +:+ "Vpk".

(** A non-empty run of characters of a class. *)
Definition token (c : Re.cclass) (s : string) : Prop :=
  s ≠ "" ∧ Is_true (Str.all (Re.cmatch c) s).

(** The field-by-field constraints of the grammar. *)
Record grammatical (i : identity) : Prop := mkGrammatical {
  g_date : is_Some (date_shape (date i));
  g_chemistry : token (Re.Not "-") (device_chemistry i);
  g_pixel : token (Re.Not "_") (device_pixel i);
  g_configuration : token Re.Dot (device_configuration i);
  g_degradation : token (Re.Not "_") (device_degradation i);
  g_frequency_range : token (Re.Not "_") (frequency_range i);
  g_capture : token (Re.Not "_") (datapoint_capture i);
  g_offset : token (Re.Not "_") (voltage_offset i);
  g_amplitude : token (Re.Not "V") (voltage_amplitude i)
}.

Ltac invert_matches :=
  repeat match goal with
  | H : Matches (Re.Seq _ _) _ _ |- _ => inversion H; clear H; subst
  | H : Matches (Re.Group _ _) _ _ |- _ => inversion H; clear H; subst
  | H : Matches (Re.Lit _) _ _ |- _ => inversion H; clear H; subst
  | H : Matches (Re.Plus _) _ _ |- _ => inversion H; clear H; subst
  | H : Matches (Re.PlusLazy _) _ _ |- _ => inversion H; clear H; subst
  end.

Lemma length_4 (s : string) :
  String.length s = 4%nat →
  ∃ a b c d, s = String a (String b (String c (String d ""))).
Proof. destruct s as [|a [|b [|c [|d [|e s]]]]]; try done. eauto. Qed.

Lemma length_2 (s : string) :
  String.length s = 2%nat → ∃ a b, s = String a (String b "").
Proof. destruct s as [|a [|b [|c s]]]; try done. eauto. Qed.

Lemma date_shape_Some x y m d :
  date_shape x = Some (y, m, d) →
  x = y +:+ "-" +:+ m +:+ "-" +:+ d ∧
  String.length y = 4%nat ∧ String.length m = 2%nat ∧ String.length d = 2%nat ∧
  Is_true (Str.all Re.is_digit y) ∧ Is_true (Str.all Re.is_digit m) ∧
  Is_true (Str.all Re.is_digit d).
Proof.
  unfold date_shape.
  repeat (match goal with
          | |- context [match ?s with "" => _ | String _ _ => _ end] =>
              destruct s; try done
          | |- context [match ?a with Ascii _ _ _ _ _ _ _ _ => _ end] =>
              destruct a as [[] [] [] [] [] [] [] []]; try done
          end).
  destruct (Str.all _ _) eqn:E; [|done]. intros [= <- <- <-].
  rewrite !Str.all_app in E.
  apply andb_prop in E as [? [? ?]%andb_prop].
  repeat split; by apply Is_true_true.
Qed.

Lemma date_shape_intro y m d :
  String.length y = 4%nat → String.length m = 2%nat → String.length d = 2%nat →
  Is_true (Str.all Re.is_digit y) → Is_true (Str.all Re.is_digit m) →
  Is_true (Str.all Re.is_digit d) →
  date_shape (y +:+ "-" +:+ m +:+ "-" +:+ d) = Some (y, m, d).
Proof.
  intros (a1 & a2 & a3 & a4 & ->)%length_4 (b1 & b2 & ->)%length_2
    (c1 & c2 & ->)%length_2 Hy Hm Hd.
  unfold date_shape. simpl in *.
  repeat match goal with
  | H : Is_true (_ && _) |- _ => apply andb_prop_elim in H as [? ?]
  | H : Is_true (Re.is_digit _) |- _ => apply Is_true_true in H; rewrite H
  end.
  done.
Qed.

(** Every successful parse is a parse of a grammatical identity. *)
Lemma parse_filename_sound filename g :
  parse_filename filename = Some g →
  ∃ i rest, g = groupdict_of i ∧ grammatical i ∧
            filename = matched_text i +:+ rest.
Proof.
  unfold parse_filename, Re.match_groupdict.
  intros (m & rest & g' & HM & -> & [= <-])%rmatch_sound.
  unfold pattern in HM. invert_matches.
  repeat match goal with
  | H : Matches (Re.Rep _ _) _ _ |- _ => inversion H; clear H; subst
  end.
  match goal with
  | Hy : String.length ?y = 4%nat, Hm : String.length ?m = 2%nat,
    Hd : String.length ?d = 2%nat |- _ =>
      match goal with
      | Hm' : String.length ?m' = 2%nat |- _ =>
          lazymatch m' with
          | m => fail
          | _ => pose proof (date_shape_intro y m' m) as Hs1;
                 pose proof (date_shape_intro y m m') as Hs2
          end
      end
  end.
  eexists (mkIdentity _ _ _ _ _ _ _ _ _), rest. simpl.
  split; [reflexivity|]. split.
  - split; simpl; try (split; assumption).
    first [ by (eexists; apply Hs1) | by (eexists; apply Hs2) ].
  - unfold matched_text. simpl. by rewrite !Str.app_assoc.
Qed.

(** ** Running the matcher forward over a text of known structure *)

(** [r] cannot match a subject that starts inside the class [c]. *)
Definition rejects (c : Re.cclass) (r : Re.regex) : Prop :=
  ∀ (R : Type) a s g (k : string → string → Re.captures → option R),
    Re.cmatch c a = true → Re.rmatch r (String a s) g k = None.

Lemma rejects_lit c b l : Re.cmatch c b = false → rejects c (Re.Lit (String b l)).
Proof.
  intros Hb R a s g k Ha. simpl. apply lit_mismatch. congruence.
Qed.

Lemma rejects_seq_lit c b l r :
  Re.cmatch c b = false → rejects c (Re.Seq (Re.Lit (String b l)) r).
Proof.
  intros Hb R a s g k Ha. simpl. apply lit_mismatch. congruence.
Qed.

Section Forward.
Context {R : Type}.
Implicit Types (k : string → string → Re.captures → option R).

Lemma step_lit l r s g k :
  Re.rmatch (Re.Seq (Re.Lit l) r) (l +:+ s) g k
  = Re.rmatch r s g (λ m s' g', k (l +:+ m) s' g').
Proof. simpl. by rewrite lit_app. Qed.

Lemma last_lit l s g k : Re.rmatch (Re.Lit l) (l +:+ s) g k = k l s g.
Proof. simpl. by rewrite lit_app. Qed.

Lemma step_greedy name c r m s g k :
  token c m → stops c s → rejects c r →
  Re.rmatch (Re.Seq (Re.Group name (Re.Plus c)) r) (m +:+ s) g k
  = Re.rmatch r s (g ++ [(name, m)]) (λ m' s' g', k (m +:+ m') s' g').
Proof.
  intros [Hne Hm] Hs Hr. simpl.
  rewrite plus_greedy_run; [done..|]. intros. by apply Hr.
Qed.

Lemma step_lazy_first name c r m s g k x :
  token c m →
  (∀ m1 m2, m = m1 +:+ m2 → m1 ≠ "" → m2 ≠ "" →
     Re.rmatch r (m2 +:+ s) (g ++ [(name, m1)])
       (λ m' s' g', k (m1 +:+ m') s' g') = None) →
  Re.rmatch r s (g ++ [(name, m)]) (λ m' s' g', k (m +:+ m') s' g') = Some x →
  Re.rmatch (Re.Seq (Re.Group name (Re.PlusLazy c)) r) (m +:+ s) g k = Some x.
Proof.
  intros [Hne Hm] Hfirst Hk. simpl.
  by apply (plus_lazy_first c m s
              (λ m0 s', Re.rmatch r s' (g ++ [(name, m0)])
                          (λ m' s'' g', k (m0 +:+ m') s'' g'))).
Qed.

Lemma step_lazy_complete name c r m s g k :
  token c m →
  is_Some (Re.rmatch r s (g ++ [(name, m)]) (λ m' s' g', k (m +:+ m') s' g')) →
  is_Some (Re.rmatch (Re.Seq (Re.Group name (Re.PlusLazy c)) r) (m +:+ s) g k).
Proof.
  intros [Hne Hm] Hk. simpl.
  by apply (plus_lazy_complete c m s
              (λ m0 s', Re.rmatch r s' (g ++ [(name, m0)])
                          (λ m' s'' g', k (m0 +:+ m') s'' g'))).
Qed.

Lemma step_date r d s g k :
  is_Some (date_shape d) →
  Re.rmatch (Re.Seq (Re.Group "date"
               (Re.Rep Re.Digit 4 · Re.Lit "-" · Re.Rep Re.Digit 2 ·
                Re.Lit "-" · Re.Rep Re.Digit 2)) r) (d +:+ s) g k
  = Re.rmatch r s (g ++ [("date", d)]) (λ m' s' g', k (d +:+ m') s' g').
Proof.
  intros [[[y m] dd] (-> & Hy & Hm & Hd & Ay & Am & Ad)%date_shape_Some].
  cbn [Re.rmatch]. rewrite !Str.app_assoc.
  rewrite rep_app, lit_app, rep_app, lit_app, rep_app; done.
Qed.
End Forward.

Lemma stops_cons c a s : Re.cmatch c a = false → stops c (String a s).
Proof. done. Qed.

(** The fields that follow the configuration and its anchor. *)
Definition suffix_text (i : identity) : string :=
  device_degradation i +:+ "_" +:+ frequency_range i +:+ "_" +:+
  datapoint_capture i +:+ "_" +:+ voltage_offset i +:+ "_" +:+
  voltage_amplitude i +:+ "Vpk".

Definition suffix_pattern : Re.regex :=
  (Re.Group "device_degradation" (Re.Plus (Re.Not "_")) · Re.Lit "_" ·
   Re.Group "frequency_range" (Re.Plus (Re.Not "_")) · Re.Lit "_" ·
   Re.Group "datapoint_capture" (Re.Plus (Re.Not "_")) · Re.Lit "_" ·
   Re.Group "voltage_offset" (Re.Plus (Re.Not "_")) · Re.Lit "_" ·
   Re.Group "voltage_amplitude" (Re.Plus (Re.Not "V")) · Re.Lit "Vpk")%regex.

Definition config_pattern : Re.regex :=
  (Re.Group "device_configuration" (Re.PlusLazy Re.Dot) ·
   Re.Lit "-config_" · suffix_pattern)%regex.

Definition fields_after_date : Re.regex :=
  (Re.Lit "_" ·
   Re.Group "device_chemistry" (Re.Plus (Re.Not "-")) · Re.Lit "-" ·
   Re.Group "device_pixel" (Re.Plus (Re.Not "_")) · Re.Lit "_" ·
   config_pattern)%regex.

Lemma pattern_split :
  pattern = (Re.Group "date"
               (Re.Rep Re.Digit 4 · Re.Lit "-" · Re.Rep Re.Digit 2 ·
                Re.Lit "-" · Re.Rep Re.Digit 2) · fields_after_date)%regex.
Proof. reflexivity. Qed.

Lemma suffix_forward {R} i rest g (k : string → string → Re.captures → option R) :
  grammatical i →
  Re.rmatch suffix_pattern (suffix_text i +:+ rest) g k
  = k (suffix_text i) rest
      (g ++ [("device_degradation", device_degradation i);
             ("frequency_range", frequency_range i);
             ("datapoint_capture", datapoint_capture i);
             ("voltage_offset", voltage_offset i);
             ("voltage_amplitude", voltage_amplitude i)]).
Proof.
  intros [].
  unfold suffix_pattern, suffix_text. rewrite !Str.app_assoc.
  do 4 (rewrite step_greedy;
          [|done|by apply stops_cons|by apply rejects_seq_lit];
        rewrite step_lit).
  rewrite step_greedy; [|done|by apply stops_cons|by apply rejects_lit].
  rewrite last_lit. rewrite <- !app_assoc. done.
Qed.

Lemma head_forward {R} i s g (k : string → string → Re.captures → option R) :
  grammatical i →
  Re.rmatch pattern
    (date i +:+ "_" +:+ device_chemistry i +:+ "-" +:+ device_pixel i +:+ "_" +:+ s)
    g k
  = Re.rmatch config_pattern s
      (g ++ [("date", date i); ("device_chemistry", device_chemistry i);
             ("device_pixel", device_pixel i)])
      (λ m' s' g', k (date i +:+ "_" +:+ device_chemistry i +:+ "-" +:+
                      device_pixel i +:+ "_" +:+ m') s' g').
Proof.
  intros [].
  rewrite pattern_split. unfold fields_after_date.
  rewrite step_date; [|done]. rewrite step_lit.
  rewrite step_greedy; [|done|by apply stops_cons|by apply rejects_seq_lit].
  rewrite step_lit.
  rewrite step_greedy; [|done|by apply stops_cons|by apply rejects_seq_lit].
  rewrite step_lit. rewrite <- !app_assoc. done.
Qed.

(** ** The anchor [-config_] *)

Definition anchor : string := "-config_".

Lemma contains_app sub s t : Str.contains sub (s +:+ sub +:+ t) = true.
Proof.
  induction s as [|a s IH].
  - rewrite Str.app_nil_l. destruct sub as [|b sub].
    + by destruct t.
    + rewrite Str.app_cons. simpl. unfold Str.startswith.
      change (String b (sub +:+ t)) with (String b sub +:+ t).
      by rewrite strip_prefix_app.
  - rewrite Str.app_cons. simpl. rewrite IH. apply orb_true_r.
Qed.

(** Inside a configuration that does not contain the anchor, no earlier
    position carries it, whatever follows the configuration's own anchor. *)
Lemma anchor_not_earlier configuration m1 m2 s :
  Str.contains anchor configuration = false →
  configuration = m1 +:+ m2 → m2 ≠ "" →
  Str.strip_prefix anchor (m2 +:+ anchor +:+ s) = None.
Proof.
  intros Hc -> Hne.
  destruct (Str.strip_prefix anchor (m2 +:+ anchor +:+ s)) as [t|] eqn:E; [|done].
  exfalso.
  destruct m2 as [|c1 [|c2 [|c3 [|c4 [|c5 [|c6 [|c7 [|c8 m2]]]]]]]];
    [done|..]; unfold anchor in E; simpl in E;
    repeat (case_bool_decide; [subst|done]); try done.
  enough (true = false) by done.
  rewrite <- Hc. symmetry. exact (contains_app anchor m1 m2).
Qed.

Lemma parse_filename_complete i rest :
  grammatical i → is_Some (parse_filename (matched_text i +:+ rest)).
Proof.
  intros Hi. unfold parse_filename, Re.match_groupdict, matched_text.
  rewrite !Str.app_assoc. rewrite head_forward; [|done].
  unfold config_pattern. apply step_lazy_complete; [by destruct Hi|].
  rewrite step_lit.
  pose proof (λ R g k, @suffix_forward R i rest g k Hi) as Hs.
  unfold suffix_text in Hs. rewrite !Str.app_assoc in Hs. by rewrite Hs.
Qed.

(** With no anchor inside the configuration, the parser returns the very
    fields the text was assembled from. *)
Lemma parse_filename_first i rest :
  grammatical i →
  Str.contains anchor (device_configuration i) = false →
  parse_filename (matched_text i +:+ rest) = Some (groupdict_of i).
Proof.
  intros Hi Hc. unfold parse_filename, Re.match_groupdict, matched_text.
  rewrite !Str.app_assoc. rewrite head_forward; [|done].
  unfold config_pattern. apply step_lazy_first; [by destruct Hi| |].
  - intros m1 m2 Hsplit Hm1 Hm2. simpl. unfold Re.lit.
    change "-config_" with anchor.
    by rewrite (anchor_not_earlier _ m1 m2 _ Hc Hsplit Hm2).
  - rewrite step_lit.
    pose proof (λ R g k, @suffix_forward R i rest g k Hi) as Hs.
    unfold suffix_text in Hs. rewrite !Str.app_assoc in Hs. by rewrite Hs.
Qed.

(** * Facts about dictionaries *)

Section DictFacts.
Context {K V : Type} `{EqDecision K}.
Implicit Types (d : list (K * V)) (k : K) (v : V).

Lemma get_set k k' v d :
  Dict.get k (Dict.set k' v d) = if decide (k = k') then Some v else Dict.get k d.
Proof.
  induction d as [|[k0 v0] d IH]; csimpl.
  - by destruct (decide (k = k')).
  - destruct (decide (k' = k0)) as [->|Hne]; csimpl.
    + destruct (decide (k = k0)); done.
    + rewrite IH. destruct (decide (k = k0)) as [->|]; [|done].
      by rewrite decide_False.
Qed.

Lemma keys_set k v d :
  Dict.keys (Dict.set k v d)
  = if decide (k ∈ Dict.keys d) then Dict.keys d else Dict.keys d ++ [k].
Proof.
  unfold Dict.keys. induction d as [|[k0 v0] d IH]; [done|]. csimpl.
  destruct (decide (k = k0)) as [->|Hne]; csimpl.
    + rewrite decide_True; [done|]. apply elem_of_cons; by left.
    + rewrite IH. destruct (decide (k ∈ d.*1)) as [Hin|Hin].
      * rewrite decide_True; [done|]. apply elem_of_cons; by right.
      * rewrite decide_False; [done|]. rewrite elem_of_cons. tauto.
Qed.

Lemma NoDup_keys_set k v d :
  NoDup (Dict.keys d) → NoDup (Dict.keys (Dict.set k v d)).
Proof.
  intros Hd. rewrite keys_set. destruct (decide _) as [|Hin]; [done|].
  apply NoDup_app. split_and!; [done| |apply NoDup_singleton].
  intros x Hx ->%list_elem_of_singleton. done.
Qed.

Lemma get_Some_elem_of k v d : Dict.get k d = Some v → (k, v) ∈ d.
Proof.
  induction d as [|[k0 v0] d IH]; csimpl; [done|].
  destruct (decide (k = k0)) as [->|].
  - intros [= ->]. apply elem_of_cons; by left.
  - intros. apply elem_of_cons; right; auto.
Qed.

Lemma get_None_keys k d : Dict.get k d = None ↔ k ∉ Dict.keys d.
Proof.
  unfold Dict.keys. induction d as [|[k0 v0] d IH]; csimpl.
  - split; [intros; apply not_elem_of_nil|done].
  - rewrite not_elem_of_cons. destruct (decide (k = k0)); [|tauto].
    split; [done|tauto].
Qed.

Lemma elem_of_get k v d :
  NoDup (Dict.keys d) → (k, v) ∈ d → Dict.get k d = Some v.
Proof.
  unfold Dict.keys. induction d as [|[k0 v0] d IH]; csimpl.
  - by intros _ ?%elem_of_nil.
  - intros [Hk0 Hd]%NoDup_cons [[= -> ->]|Hin]%elem_of_cons.
    + by rewrite decide_True.
    + rewrite decide_False; [auto|]. intros ->. apply Hk0.
      apply list_elem_of_fmap. by exists (k0, v).
Qed.
End DictFacts.

(** * Facts about [parsed_files] and the grouping loop *)

Lemma parse_filename_truthy file :
  truthy (parse_filename file) = true ↔ is_Some (parse_filename file).
Proof.
  destruct (parse_filename file) as [g|] eqn:E; simpl.
  - apply parse_filename_sound in E as (i & rest & -> & _). simpl.
    split; eauto.
  - split; [done|]. by intros [? ?].
Qed.

Definition parsed_step (d : list (string * Re.captures)) (file : string)
    : list (string * Re.captures) :=
  if truthy (parse_filename file)
  then match parse_filename file with
       | Some characteristics => Dict.set file characteristics d
       | None => d
       end
  else d.

Lemma get_parsed_from files file :
  Dict.get file (foldl parsed_step [] files)
  = if decide (file ∈ files) then parse_filename file else None.
Proof.
  induction files as [|f files IH] using rev_ind; [done|].
  - rewrite foldl_app. simpl. unfold parsed_step at 1.
    destruct (truthy (parse_filename f)) eqn:Ht.
    + apply parse_filename_truthy in Ht as [c Hc]. rewrite Hc, get_set, IH.
      destruct (decide (file = f)) as [->|Hne].
      * rewrite decide_True; [done|]. apply elem_of_app; right.
        by apply list_elem_of_singleton.
      * destruct (decide (file ∈ files)) as [Hin|Hin].
        -- rewrite decide_True; [done|]. apply elem_of_app; by left.
        -- rewrite decide_False; [done|].
           rewrite elem_of_app, list_elem_of_singleton. tauto.
    + rewrite IH.
      assert (parse_filename f = None) as Hf.
      { destruct (parse_filename f) eqn:E; [|done].
        assert (truthy (parse_filename f) = true) as Ht'
          by (apply parse_filename_truthy; rewrite E; eauto).
        rewrite E in Ht'. congruence. }
      destruct (decide (file ∈ files)) as [Hin|Hin].
      * rewrite decide_True; [done|]. apply elem_of_app; by left.
      * destruct (decide (file = f)) as [->|Hne].
        -- rewrite Hf. by destruct (decide _).
        -- rewrite decide_False; [done|].
           rewrite elem_of_app, list_elem_of_singleton. tauto.
Qed.

Lemma NoDup_parsed_from files : NoDup (Dict.keys (foldl parsed_step [] files)).
Proof.
  induction files as [|f files IH] using rev_ind; [apply NoDup_nil_2|].
  rewrite foldl_app. simpl. unfold parsed_step at 1.
  destruct (truthy _); [|done]. destruct (parse_filename f); [|done].
  by apply NoDup_keys_set.
Qed.

Lemma parsed_files_unfold listdir :
  parsed_files listdir = foldl parsed_step [] (txt_files listdir).
Proof. reflexivity. Qed.

Lemma get_parsed_files listdir file :
  Dict.get file (parsed_files listdir)
  = if decide (file ∈ txt_files listdir) then parse_filename file else None.
Proof. rewrite parsed_files_unfold. apply get_parsed_from. Qed.

Lemma NoDup_parsed_files listdir : NoDup (Dict.keys (parsed_files listdir)).
Proof. rewrite parsed_files_unfold. apply NoDup_parsed_from. Qed.

Lemma elem_of_parsed_files listdir file c :
  (file, c) ∈ parsed_files listdir ↔
  file ∈ listdir ∧ Is_true (Str.endswith file ".txt") ∧
  parse_filename file = Some c.
Proof.
  unfold txt_files. split.
  - intros Hin. apply elem_of_get in Hin; [|apply NoDup_parsed_files].
    rewrite get_parsed_files in Hin. destruct (decide _) as [Ht|]; [|done].
    unfold txt_files in Ht. apply list_elem_of_filter in Ht. tauto.
  - intros (Hin & Htxt & Hp). apply get_Some_elem_of.
    rewrite get_parsed_files, decide_True; [done|].
    unfold txt_files. apply list_elem_of_filter. done.
Qed.

Section GroupFacts.
Context {K : Type} `{EqDecision K}.
Variable key_of : Re.captures → K.
Implicit Types (parsed : list (string * Re.captures)).

(** The files of [parsed] whose key is [key], in their order. *)
Definition members (key : K) parsed : list string :=
  (filter (λ fc, key_of fc.2 = key) parsed).*1.

Lemma get_group_files parsed key :
  Dict.get key (group_files key_of parsed)
  = match members key parsed with
    | [] => None
    | files => Some files
    end.
Proof.
  unfold group_files, members.
  induction parsed as [|[f c] parsed IH] using rev_ind; [done|].
  rewrite foldl_app. simpl. rewrite get_set, filter_app, fmap_app.
  rewrite filter_cons, filter_nil. simpl.
  destruct (decide (key = key_of c)) as [->|Hne].
  - rewrite decide_True; [|done]. rewrite IH. simpl.
    by destruct ((filter _ parsed).*1).
  - rewrite decide_False; [|done]. simpl. by rewrite app_nil_r.
Qed.

Lemma NoDup_group_files parsed : NoDup (Dict.keys (group_files key_of parsed)).
Proof.
  unfold group_files.
  induction parsed as [|[f c] parsed IH] using rev_ind; [apply NoDup_nil_2|].
  rewrite foldl_app. simpl. by apply NoDup_keys_set.
Qed.

Lemma elem_of_group_files parsed key files :
  (key, files) ∈ group_files key_of parsed ↔
  files = members key parsed ∧ files ≠ [].
Proof.
  split.
  - intros Hin%elem_of_get; [|apply NoDup_group_files].
    rewrite get_group_files in Hin.
    destruct (members key parsed); [done|]. by injection Hin as <-.
  - intros [-> Hne]. apply get_Some_elem_of. rewrite get_group_files.
    by destruct (members key parsed).
Qed.

Lemma elem_of_members parsed key file :
  file ∈ members key parsed ↔ ∃ c, (file, c) ∈ parsed ∧ key_of c = key.
Proof.
  unfold members. rewrite list_elem_of_fmap. split.
  - intros ([f c] & -> & [Hk Hin]%list_elem_of_filter). by exists c.
  - intros (c & Hin & Hk). exists (file, c). split; [done|].
    by apply list_elem_of_filter.
Qed.
End GroupFacts.

(** A directory entry that is not a parsed measurement file leaves
    [parsed_files] as it is without the entry. *)
Lemma parsed_files_skip l1 file l2 :
  ¬ (Is_true (Str.endswith file ".txt") ∧ is_Some (parse_filename file)) →
  parsed_files (l1 ++ file :: l2) = parsed_files (l1 ++ l2).
Proof.
  intros Hskip. rewrite !parsed_files_unfold. unfold txt_files.
  rewrite !filter_app, filter_cons.
  destruct (decide (Is_true (Str.endswith file ".txt"))) as [Htxt|]; [|done].
  assert (∀ d, parsed_step d file = d) as Hstep.
  { intros d. unfold parsed_step.
    destruct (truthy (parse_filename file)) eqn:Ht; [|done].
    apply parse_filename_truthy in Ht. tauto. }
  rewrite !foldl_app. simpl. by rewrite Hstep.
Qed.

(** Two files are in the same group. *)
Definition same_group {K} (groups : list (K * list string)) (f1 f2 : string)
    : Prop :=
  ∃ key files, (key, files) ∈ groups ∧ f1 ∈ files ∧ f2 ∈ files.

Lemma same_group_iff {K} `{EqDecision K} (key_of : Re.captures → K) parsed f1 f2 :
  same_group (group_files key_of parsed) f1 f2 ↔
  ∃ c1 c2, (f1, c1) ∈ parsed ∧ (f2, c2) ∈ parsed ∧ key_of c1 = key_of c2.
Proof.
  split.
  - intros (key & files & [-> _]%elem_of_group_files & H1 & H2).
    apply elem_of_members in H1 as (c1 & ? & ?).
    apply elem_of_members in H2 as (c2 & ? & ?).
    exists c1, c2. split_and!; [done..|congruence].
  - intros (c1 & c2 & H1 & H2 & Hk).
    exists (key_of c1), (members key_of (key_of c1) parsed).
    assert (f1 ∈ members key_of (key_of c1) parsed) as Hin
      by (apply elem_of_members; eauto).
    split_and!; [|done|apply elem_of_members; eauto].
    apply elem_of_group_files. split; [done|]. intros Hnil.
    rewrite Hnil in Hin. by apply elem_of_nil in Hin.
Qed.

(** What "grouping is a partition of the parsed files, whatever the order
    of the directory listing" means for a grouping key [key_of]. *)
Definition partitions {K} `{EqDecision K} (key_of : Re.captures → K)
    (listdir listdir' : list string) : Prop :=
  let parsed := parsed_files listdir in
  let groups := group_files key_of parsed in
  (* no key has two groups *)
  NoDup (Dict.keys groups) ∧
  (* a group holds parsed files only, each once *)
  (∀ key files, (key, files) ∈ groups →
     files ≠ [] ∧ NoDup files ∧ ∀ file, file ∈ files → file ∈ Dict.keys parsed) ∧
  (* a parsed file is in the group of its key and in no other *)
  (∀ file c, (file, c) ∈ parsed →
     ∃ files, (key_of c, files) ∈ groups ∧ file ∈ files ∧
       ∀ key' files', (key', files') ∈ groups → file ∈ files' →
         key' = key_of c ∧ files' = files) ∧
  (* the order of the listing does not matter *)
  (∀ f1 f2, same_group groups f1 f2 ↔
            same_group (group_files key_of (parsed_files listdir')) f1 f2).

Lemma group_files_partitions {K} `{EqDecision K} (key_of : Re.captures → K)
    listdir listdir' :
  listdir ≡ₚ listdir' → partitions key_of listdir listdir'.
Proof.
  intros Hperm. unfold partitions. cbv zeta.
  pose proof (NoDup_parsed_files listdir) as Hnd.
  split_and!.
  - apply NoDup_group_files.
  - intros key files [-> Hne]%elem_of_group_files. split_and!; [done| |].
    + unfold members. eapply sublist_NoDup; [exact Hnd|apply fmap_sublist, sublist_filter].
    + intros file (c & Hin & _)%elem_of_members.
      apply list_elem_of_fmap. by exists (file, c).
  - intros file c Hin.
    assert (file ∈ members key_of (key_of c) (parsed_files listdir)) as Hmem
      by (apply elem_of_members; eauto).
    exists (members key_of (key_of c) (parsed_files listdir)). split_and!; [|done|].
    + apply elem_of_group_files. split; [done|]. intros Hnil.
      rewrite Hnil in Hmem. by apply elem_of_nil in Hmem.
    + intros key' files' [-> _]%elem_of_group_files (c' & Hin' & <-)%elem_of_members.
      assert (c' = c) as ->; [|done].
      apply (elem_of_get _ _ _ Hnd) in Hin, Hin'. congruence.
  - intros f1 f2. rewrite !same_group_iff.
    assert (∀ f c, (f, c) ∈ parsed_files listdir ↔ (f, c) ∈ parsed_files listdir') as Hiff.
    { intros f c. rewrite !elem_of_parsed_files. by rewrite Hperm. }
    split; intros (c1 & c2 & H1 & H2 & Hk); exists c1, c2;
      (split_and!; [by apply Hiff|by apply Hiff|done]).
Qed.

(** * Claims about parsing and grouping *)

(** C5: the parser either captures all nine fields of the grammar (the
    complete mapping, every field a token of its class) or returns no
    match; never a part of the fields. A file name that does not match is
    dropped without an error: the parsed files, the batch run and the
    viewer's statistics are those of the directory without it. *)
Theorem C5_parse_all_or_nothing (filename : string) :
  match parse_filename filename with
  | Some g =>
      ∃ i rest, g = groupdict_of i ∧ grammatical i ∧
                filename = matched_text i +:+ rest ∧
                Dict.keys g = ["date"; "device_chemistry"; "device_pixel";
                               "device_configuration"; "device_degradation";
                               "frequency_range"; "datapoint_capture";
                               "voltage_offset"; "voltage_amplitude"]
  | None =>
      ∀ l1 l2,
        (filename ∉ Dict.keys (parsed_files (l1 ++ filename :: l2))) ∧
        parsed_files (l1 ++ filename :: l2) = parsed_files (l1 ++ l2) ∧
        (∀ load_data, run load_data (l1 ++ filename :: l2) = run load_data (l1 ++ l2)) ∧
        (∀ load_data float sqrt,
           Viewer.group_data load_data float sqrt (parsed_files (l1 ++ filename :: l2))
           = Viewer.group_data load_data float sqrt (parsed_files (l1 ++ l2)))
  end.
Proof.
  destruct (parse_filename filename) as [g|] eqn:E.
  - destruct (parse_filename_sound _ _ E) as (i & rest & -> & Hi & Hf).
    by exists i, rest.
  - intros l1 l2.
    assert (parsed_files (l1 ++ filename :: l2) = parsed_files (l1 ++ l2)) as Heq.
    { apply parsed_files_skip. rewrite E. by intros [_ [? ?]]. }
    split_and!.
    + apply get_None_keys. rewrite get_parsed_files, E. by destruct (decide _).
    + done.
    + intros. unfold run. by rewrite Heq.
    + intros. by rewrite Heq.
Qed.

(** C6: for every exclusion set, grouping partitions the parsed files:
    each lies in exactly one group, the one of its retained fields (as
    name/value pairs in the batch tool, as values in the viewer), and
    which files share a group does not depend on the order of the
    directory listing. *)
Theorem C6_grouping_is_partition (excluded : list string)
    (listdir listdir' : list string) :
  listdir ≡ₚ listdir' →
  partitions (group_key excluded) listdir listdir' ∧
  partitions (Viewer.viewer_key excluded) listdir listdir'.
Proof. intros. split; by apply group_files_partitions. Qed.

(** C10: both programs read [raw_data] through the same [.txt] filter. A
    file whose name matches the grammar but does not end in [.txt] is not
    among the text files, the parsed files or any group, and the batch
    run and the viewer's statistics are those of the directory without
    it. *)
Theorem C10_only_txt_files (file : string) (l1 l2 : list string) :
  is_Some (parse_filename file) →
  Str.endswith file ".txt" = false →
  (file ∉ txt_files (l1 ++ file :: l2)) ∧
  (file ∉ Dict.keys (parsed_files (l1 ++ file :: l2))) ∧
  (∀ key files, (key, files) ∈ grouped_files (parsed_files (l1 ++ file :: l2)) →
     file ∉ files) ∧
  (∀ load_data, run load_data (l1 ++ file :: l2) = run load_data (l1 ++ l2)) ∧
  (∀ load_data float sqrt,
     Viewer.group_data load_data float sqrt (parsed_files (l1 ++ file :: l2))
     = Viewer.group_data load_data float sqrt (parsed_files (l1 ++ l2))).
Proof.
  intros _ Htxt.
  assert (file ∉ txt_files (l1 ++ file :: l2)) as Hnot.
  { unfold txt_files. rewrite list_elem_of_filter, Htxt. simpl. tauto. }
  assert (file ∉ Dict.keys (parsed_files (l1 ++ file :: l2))) as Hkeys.
  { apply get_None_keys. rewrite get_parsed_files. by rewrite decide_False. }
  assert (parsed_files (l1 ++ file :: l2) = parsed_files (l1 ++ l2)) as Heq.
  { apply parsed_files_skip. rewrite Htxt. simpl. tauto. }
  split_and!; [done|done| | |].
  - intros key files [-> _]%elem_of_group_files (c & Hin & _)%elem_of_members.
    apply Hkeys. apply list_elem_of_fmap. by exists (file, c).
  - intros. unfold run. by rewrite Heq.
  - intros. by rewrite Heq.
Qed.

(** * The members of a group of the batch tool *)

(** [file] is a parsed file of the listing, with identity [i], in the
    group of [key]. *)
Record member (listdir : list string) (key : list (string * string))
    (file : string) (i : identity) : Prop := mkMember {
  m_get : Dict.get file (parsed_files listdir) = Some (groupdict_of i);
  m_parse : parse_filename file = Some (groupdict_of i);
  m_grammatical : grammatical i;
  m_key : group_key batch_excluded (groupdict_of i) = key;
  m_text : ∃ rest, file = matched_text i +:+ rest
}.

Lemma Forall_exists_Forall2 {A B} (P : A → B → Prop) (l : list A) :
  Forall (λ x, ∃ y, P x y) l → ∃ k, Forall2 P l k.
Proof.
  induction 1 as [|x l [y Hy] _ [k Hk]]; [by exists []|].
  exists (y :: k). by constructor.
Qed.

Lemma group_identities listdir key files :
  (key, files) ∈ grouped_files (parsed_files listdir) →
  files ≠ [] ∧ ∃ ids, Forall2 (member listdir key) files ids.
Proof.
  intros [-> Hne]%elem_of_group_files. split; [done|].
  apply Forall_exists_Forall2, Forall_forall.
  intros file (c & Hin & Hk)%elem_of_members.
  pose proof Hin as (_ & _ & Hp)%elem_of_parsed_files.
  destruct (parse_filename_sound _ _ Hp) as (i & rest & -> & Hi & Hf).
  exists i. split; [|done|done|done|by exists rest].
  apply elem_of_get; [apply NoDup_parsed_files|done].
Qed.

Lemma mapM_field listdir key name proj files ids :
  (∀ i, Dict.get name (groupdict_of i) = Some (proj i)) →
  Forall2 (member listdir key) files ids →
  mapM (field (parsed_files listdir) name) files = Some (proj <$> ids).
Proof.
  intros Hproj Hall. apply mapM_Some.
  induction Hall as [|file i files ids [Hget _ _ _ _] _ IH]; csimpl;
    constructor; [|done].
  unfold field. rewrite Hget. simpl. apply Hproj.
Qed.

Lemma combine_loop_written load_data parsed groups name df :
  (name, df) ∈ (combine_loop load_data parsed groups).1 →
  ∃ key files, (key, files) ∈ groups ∧
               combine_group load_data parsed key files = Created name df.
Proof.
  induction groups as [|[key files] groups IH]; simpl.
  - by intros ?%elem_of_nil.
  - destruct (combine_group load_data parsed key files) as [|name' df'|] eqn:E.
    + intros (k & fs & ? & ?)%IH. exists k, fs. split; [|done].
      apply elem_of_cons; by right.
    + destruct (combine_loop load_data parsed groups) as [written completed].
      simpl in *. intros [[= -> ->]|Hin]%elem_of_cons.
      * exists key, files. split; [|done]. apply elem_of_cons; by left.
      * destruct (IH Hin) as (k & fs & ? & ?). exists k, fs. split; [|done].
        apply elem_of_cons; by right.
    + by intros ?%elem_of_nil.
Qed.

(** The loop over the groups before a group that none of them stops. *)
Lemma combine_loop_app load_data parsed before rest :
  Forall (λ g, combine_group load_data parsed g.1 g.2 ≠ Raised) before →
  combine_loop load_data parsed (before ++ rest)
  = ((combine_loop load_data parsed before).1
       ++ (combine_loop load_data parsed rest).1,
     (combine_loop load_data parsed rest).2).
Proof.
  induction 1 as [|[key files] before Hhere _ IH]; simpl.
  - by destruct (combine_loop load_data parsed rest).
  - simpl in Hhere.
    destruct (combine_group load_data parsed key files); [done| |done].
    rewrite IH. by destruct (combine_loop load_data parsed before).
Qed.

(** C1: for the group at any place of the loop over the groups of a
    directory, the body of the loop skips the group exactly when the set
    of the members' frequency ranges is not the required set (a strict
    subset and a strict superset included), and otherwise runs the
    combination step, whose result (a file, or an exception) is the
    group's. When the loop reaches the group, no group before it having
    raised, the run writes the files of the groups before it, then the
    file of this group exactly when its step ran to the end, then the
    files of the groups after it; for a skipped group it writes none, and
    an exception of the step ends the run. Every file the run writes
    comes from a group that has exactly the required set. *)
Theorem C1_combines_iff_required_ranges (load_data : string → option DataFrame)
    (listdir : list string)
    (before : list (list (string * string) * list string))
    (key : list (string * string)) (files : list string)
    (after : list (list (string * string) * list string)) :
  grouped_files (parsed_files listdir) = before ++ (key, files) :: after →
  ∃ ids,
    Forall2 (λ file i, parse_filename file = Some (groupdict_of i)) files ids ∧
    let parsed := parsed_files listdir in
    let ranges := frequency_range <$> ids in
    let result := combine_group load_data parsed key files in
    let earlier := (combine_loop load_data parsed before).1 in
    let later := combine_loop load_data parsed after in
    (list_to_set ranges = required_ranges ↔
       ∀ r, r ∈ ranges ↔ r = "500k-5kHz" ∨ r = "5k-200Hz" ∨ r = "200-1Hz") ∧
    (result = Skipped ↔ list_to_set ranges ≠ required_ranges) ∧
    (list_to_set ranges ⊂ required_ranges ∨
     required_ranges ⊂ list_to_set ranges → result = Skipped) ∧
    (list_to_set ranges = required_ranges ↔
       result = match combine load_data parsed key files with
                | Some (name, combined_df) => Created name combined_df
                | None => Raised
                end) ∧
    (Forall (λ g, combine_group load_data parsed g.1 g.2 ≠ Raised) before →
       (list_to_set ranges ≠ required_ranges →
          run load_data listdir = (earlier ++ later.1, later.2)) ∧
       (list_to_set ranges = required_ranges →
          ∀ name combined_df,
            combine load_data parsed key files = Some (name, combined_df) →
            run load_data listdir
            = (earlier ++ (name, combined_df) :: later.1, later.2)) ∧
       (list_to_set ranges = required_ranges →
          combine load_data parsed key files = None →
          run load_data listdir = (earlier, false))) ∧
    (∀ name df, (name, df) ∈ (run load_data listdir).1 →
       ∃ key' files' ids',
         (key', files') ∈ grouped_files (parsed_files listdir) ∧
         Forall2 (λ file i, parse_filename file = Some (groupdict_of i)) files' ids' ∧
         list_to_set (frequency_range <$> ids') = required_ranges ∧
         combine_group load_data (parsed_files listdir) key' files'
         = Created name df).
Proof.
  assert (∀ key files ids, Forall2 (member listdir key) files ids →
            combine_group load_data (parsed_files listdir) key files
            = if decide (list_to_set (frequency_range <$> ids) = required_ranges)
              then match combine load_data (parsed_files listdir) key files with
                   | Some (name, combined_df) => Created name combined_df
                   | None => Raised
                   end
              else Skipped) as Hbody.
  { clear. intros key files ids Hids. unfold combine_group.
    by rewrite (mapM_field listdir key "frequency_range" frequency_range files ids). }
  assert (∀ key files ids, Forall2 (member listdir key) files ids →
            Forall2 (λ file i, parse_filename file = Some (groupdict_of i)) files ids)
    as Hparse.
  { intros ??? H. eapply Forall2_impl; [exact H|]. by intros ?? []. }
  intros Hsplit.
  assert ((key, files) ∈ grouped_files (parsed_files listdir)) as Hin.
  { rewrite Hsplit. apply elem_of_app. right. apply list_elem_of_here. }
  destruct (group_identities _ _ _ Hin) as [_ [ids Hids]].
  exists ids. split; [by eapply Hparse|]. intros parsed ranges result earlier later.
  assert (result = if decide (list_to_set ranges = required_ranges)
                   then match combine load_data parsed key files with
                        | Some (name, combined_df) => Created name combined_df
                        | None => Raised
                        end
                   else Skipped) as Hresult by (by apply Hbody).
  assert (Forall (λ g, combine_group load_data parsed g.1 g.2 ≠ Raised) before →
          run load_data listdir
          = match result with
            | Skipped => (earlier ++ later.1, later.2)
            | Created name combined_df =>
                (earlier ++ (name, combined_df) :: later.1, later.2)
            | Raised => (earlier, false)
            end) as Hrun.
  { intros Hbefore. unfold run. rewrite Hsplit. fold parsed.
    rewrite combine_loop_app by done. fold earlier. simpl. fold result later.
    destruct result; [done| |by rewrite app_nil_r].
    by destruct later. }
  split_and!.
  - unfold required_ranges. split.
    + intros Heq r. rewrite <- (elem_of_list_to_set (C:=gset string)), Heq.
      rewrite !elem_of_union, !elem_of_singleton. tauto.
    + intros Hr. apply set_eq. intros r. rewrite elem_of_list_to_set, Hr.
      rewrite !elem_of_union, !elem_of_singleton. tauto.
  - rewrite Hresult. destruct (decide _) as [Heq|Hne]; [|done].
    destruct (combine _ _ _ _) as [[? ?]|]; split; done.
  - rewrite Hresult. intros Hstrict. rewrite decide_False; [done|].
    intros Heq. rewrite Heq in Hstrict.
    destruct Hstrict as [[_ Hn]|[_ Hn]]; by apply Hn.
  - rewrite Hresult. destruct (decide _) as [Heq|Hne]; [done|].
    split; [done|]. by destruct (combine _ _ _ _) as [[? ?]|].
  - intros Hbefore. apply Hrun in Hbefore. rewrite Hresult in Hbefore.
    split_and!.
    + intros Hne. by rewrite decide_False in Hbefore.
    + intros Heq name combined_df Hc.
      by rewrite decide_True, Hc in Hbefore.
    + intros Heq Hc. by rewrite decide_True, Hc in Hbefore.
  - intros name df (key' & files' & Hin' & Hc)%combine_loop_written.
    pose proof Hin' as [_ [ids' Hids']]%group_identities.
    exists key', files', ids'. split_and!; [done|by eapply Hparse| |done].
    rewrite (Hbody key' files' ids' Hids') in Hc.
    destruct (decide (list_to_set (frequency_range <$> ids') = required_ranges));
      [done|discriminate].
Qed.

(** * What a created file is made of *)

Lemma newest_of_elem_of dates newest :
  newest_of dates = Some newest →
  newest ∈ dates ∧ Forall (λ x, is_Some (strptime_ymd x)) dates.
Proof.
  unfold newest_of.
  destruct (mapM _ dates) as [keyed|] eqn:E; [|done]. simpl.
  apply mapM_Some in E.
  assert (Forall (λ p : string * (Z * Z * Z), p.1 ∈ dates) keyed) as Hin.
  { apply Forall_forall. intros p Hp.
    destruct (proj1 (list_elem_of_lookup _ _) Hp) as [n Hn].
    destruct (Forall2_lookup_r _ _ _ _ _ E Hn) as (x & Hx & Hf).
    destruct (strptime_ymd x); [|done]. simpl in Hf. injection Hf as <-.
    simpl. eapply list_elem_of_lookup_2; eauto. }
  intros Hsome. split.
  - destruct keyed as [|first others]; [done|]. injection Hsome as <-.
    apply Forall_cons in Hin as [Hfirst Hothers].
    clear E. revert first Hfirst.
    induction others as [|cand others IH]; intros best Hbest; [done|].
    apply Forall_cons in Hothers as [Hcand Hothers]. simpl.
    apply IH; [done|]. by destruct (date_lt _ _).
  - apply Forall_forall. intros x Hx.
    destruct (proj1 (list_elem_of_lookup _ _) Hx) as [n Hn].
    destruct (Forall2_lookup_l _ _ _ _ _ E Hn) as (p & _ & Hf).
    destruct (strptime_ymd x); [eauto|done].
Qed.

(** The key of a group gives back the five retained fields. *)
Lemma key_characteristics i :
  let characteristics := Dict.of_pairs (group_key batch_excluded (groupdict_of i)) in
  Dict.get "device_chemistry" characteristics = Some (device_chemistry i) ∧
  Dict.get "device_pixel" characteristics = Some (device_pixel i) ∧
  Dict.get "device_configuration" characteristics = Some (device_configuration i) ∧
  Dict.get "voltage_offset" characteristics = Some (voltage_offset i) ∧
  Dict.get "voltage_amplitude" characteristics = Some (voltage_amplitude i).
Proof. by destruct i. Qed.

Lemma list_to_set_nil_required :
  list_to_set (frequency_range <$> []) = required_ranges → False.
Proof.
  intros H. assert ("200-1Hz" ∈ required_ranges) as Hin
    by (unfold required_ranges; rewrite !elem_of_union, !elem_of_singleton; tauto).
  rewrite <- H in Hin. by apply elem_of_empty in Hin.
Qed.

Lemma combine_created load_data listdir key files ids name df :
  Forall2 (member listdir key) files ids →
  combine_group load_data (parsed_files listdir) key files = Created name df →
  ∃ i newest dfs,
    i ∈ ids ∧ newest ∈ date <$> ids ∧
    newest_of (date <$> ids) = Some newest ∧
    mapM load_data files = Some dfs ∧ combine_dataframes dfs = Some df ∧
    list_to_set (frequency_range <$> ids) = required_ranges ∧
    name = new_filename newest (device_chemistry i) (device_pixel i)
             (device_configuration i)
             (find_highest_degradation (device_degradation <$> ids))
             (sum_datapoint_capture (datapoint_capture <$> ids))
             (voltage_offset i) (voltage_amplitude i).
Proof.
  intros Hids. unfold combine_group.
  rewrite (mapM_field listdir key "frequency_range" frequency_range files ids);
    [|done|done].
  destruct (decide _) as [Hreq|]; [|done].
  destruct (combine _ _ _ _) as [[name' df']|] eqn:E; [|done].
  intros [= -> ->]. unfold combine in E.
  destruct (mapM load_data files) as [dfs|] eqn:El; [|done]. simpl in E.
  destruct (combine_dataframes dfs) as [combined_df|] eqn:Ec; [|done]. simpl in E.
  rewrite (mapM_field listdir key "datapoint_capture" datapoint_capture files ids)
    in E; [|done|done].
  rewrite (mapM_field listdir key "date" date files ids) in E; [|done|done].
  rewrite (mapM_field listdir key "device_degradation" device_degradation files ids)
    in E; [|done|done].
  simpl in E.
  destruct (newest_of (date <$> ids)) as [newest|] eqn:En; [|done]. simpl in E.
  assert (∃ i, i ∈ ids ∧ key = group_key batch_excluded (groupdict_of i))
    as (i & Hi & ->).
  { destruct Hids as [|file i files ids [_ _ _ Hk _] _].
    - apply list_to_set_nil_required in Hreq. done.
    - exists i. split; [apply elem_of_cons; by left|done]. }
  destruct (key_characteristics i) as (-> & -> & -> & -> & ->) in E.
  simpl in E. injection E as <- <-.
  exists i, newest, dfs. split_and!; try done.
  by apply newest_of_elem_of in En as [? _].
Qed.

(** * Integers embedded in a token *)

(** The maximal runs of decimal digits of a string, left to right: a run
    is a non-empty string of digits that is followed by no digit, and the
    characters between two runs are not digits. *)
Inductive digit_runs : string → list string → Prop :=
| runs_end : digit_runs "" []
| runs_other a s l :
    Re.is_digit a = false → digit_runs s l → digit_runs (String a s) l
| runs_digits d s l :
    token Re.Digit d → stops Re.Digit s → digit_runs s l →
    digit_runs (d +:+ s) (d :: l).

(** Every string starts with a longest run of a class. *)
Lemma longest_run c s :
  ∃ m s', s = m +:+ s' ∧ Is_true (Str.all (Re.cmatch c) m) ∧ stops c s'.
Proof.
  induction s as [|a s (m & s' & -> & Hm & Hs)]; [by exists "", ""|].
  destruct (Re.cmatch c a) eqn:Ha.
  - exists (String a m), s'. simpl. by rewrite Ha.
  - by exists "", (String a (m +:+ s')).
Qed.

Lemma longest_run_unique c m1 s1 m2 s2 :
  m1 +:+ s1 = m2 +:+ s2 →
  Is_true (Str.all (Re.cmatch c) m1) → Is_true (Str.all (Re.cmatch c) m2) →
  stops c s1 → stops c s2 → m1 = m2 ∧ s1 = s2.
Proof.
  revert m2. induction m1 as [|a m1 IH]; intros [|b m2]; simpl.
  - done.
  - rewrite Str.app_nil_l, Str.app_cons. intros -> _ [Hb _]%andb_prop_elim Hs _.
    simpl in Hs. rewrite Hs in Hb. done.
  - rewrite Str.app_nil_l, Str.app_cons. intros <- [Ha _]%andb_prop_elim _ _ Hs.
    simpl in Hs. rewrite Hs in Ha. done.
  - rewrite !Str.app_cons. intros [= -> Heq] [_ H1]%andb_prop_elim
      [_ H2]%andb_prop_elim Hs1 Hs2.
    destruct (IH m2 Heq H1 H2 Hs1 Hs2) as [-> ->]. done.
Qed.

(** A greedy run takes the longest run when the continuation accepts it. *)
Lemma plus_greedy_longest {R} c m s (k : string → string → option R) :
  m ≠ "" → Is_true (Str.all (Re.cmatch c) m) → stops c s → is_Some (k m s) →
  Re.plus_greedy c (m +:+ s) k = k m s.
Proof.
  revert k. induction m as [|a m IH]; intros k Hne Hall Hs Hk; [done|].
  simpl in Hall. apply andb_prop_elim in Hall as [Ha%Is_true_true Hm].
  rewrite Str.app_cons. simpl. rewrite Ha.
  destruct m as [|a' m].
  - rewrite Str.app_nil_l.
    assert (Re.plus_greedy c s (λ m r, k (String a m) r) = None) as ->; [|done].
    destruct s as [|b s]; [done|]. simpl in *. by rewrite Hs.
  - rewrite IH; [|done..]. by destruct Hk as [x ->].
Qed.

Lemma digit_runs_inv s l :
  digit_runs s l →
  (s = "" ∧ l = []) ∨
  (∃ a s', s = String a s' ∧ Re.is_digit a = false ∧ digit_runs s' l) ∨
  (∃ d s' l', s = d +:+ s' ∧ l = d :: l' ∧ token Re.Digit d ∧
              stops Re.Digit s' ∧ digit_runs s' l').
Proof. destruct 1; eauto 10. Qed.

Lemma token_digit_head d s a s' :
  token Re.Digit d → d +:+ s = String a s' → Re.is_digit a = true.
Proof.
  intros [Hne Hd]. destruct d as [|b d]; [done|]. rewrite Str.app_cons.
  intros [= -> _]. simpl in Hd. apply andb_prop_elim in Hd as [Hb _].
  by apply Is_true_true.
Qed.

Lemma token_app_nonempty c d s : token c d → d +:+ s ≠ "".
Proof. intros [Hne _]. by destruct d. Qed.

Lemma digit_runs_functional s l1 l2 :
  digit_runs s l1 → digit_runs s l2 → l1 = l2.
Proof.
  intros H1. revert l2.
  induction H1 as [|a s l Ha _ IH|d s l Hd Hs _ IH]; intros l2 H2;
    apply digit_runs_inv in H2
      as [[Heq ->]|[(a' & s' & Heq & Ha' & H2)|(d' & s' & l' & Heq & -> & Hd' & Hs' & H2)]].
  - done.
  - done.
  - symmetry in Heq. by apply (token_app_nonempty _ _ _ Hd') in Heq.
  - done.
  - injection Heq as <- <-. by apply IH.
  - symmetry in Heq. apply (token_digit_head _ _ _ _ Hd') in Heq. congruence.
  - by apply (token_app_nonempty _ _ _ Hd) in Heq.
  - apply (token_digit_head _ _ _ _ Hd) in Heq. congruence.
  - destruct Hd as [? Hd], Hd' as [? Hd'].
    destruct (longest_run_unique _ _ _ _ _ Heq Hd Hd' Hs Hs') as [<- <-].
    f_equal. by apply IH.
Qed.

Lemma length_app_string (s t : string) :
  String.length (s +:+ t) = (String.length s + String.length t)%nat.
Proof. induction s as [|a s IH]; [done|]. rewrite Str.app_cons. simpl. lia. Qed.

(** [re.findall(r"\d+", s)] lists the maximal runs of digits; the fuel of
    the model never runs out. *)
Lemma findall_fuel_digit_runs fuel s :
  (String.length s < fuel)%nat →
  digit_runs s (Re.findall_fuel fuel (Re.Plus Re.Digit) s).
Proof.
  revert s. induction fuel as [|fuel IH]; intros s Hlen; [lia|].
  destruct s as [|a s]; [constructor|].
  destruct (Re.is_digit a) eqn:Ha.
  - destruct (longest_run Re.Digit s) as (m & s' & -> & Hm & Hs).
    change (String a (m +:+ s')) with (String a m +:+ s') in *.
    assert (token Re.Digit (String a m)) as Htok.
    { split; [done|]. simpl. by rewrite Ha. }
    cbn [Re.findall_fuel Re.rmatch].
    rewrite plus_greedy_longest; [|by destruct Htok..|done|by eexists].
    constructor; [done..|]. apply IH.
    rewrite length_app_string in Hlen. simpl in Hlen. lia.
  - cbn [Re.findall_fuel Re.rmatch]. cbn [Re.plus_greedy Re.cmatch].
    rewrite Ha. constructor; [done|]. apply IH. simpl in Hlen. lia.
Qed.

Lemma findall_digit_runs s : digit_runs s (Re.findall (Re.Plus Re.Digit) s).
Proof. apply findall_fuel_digit_runs. lia. Qed.

Lemma sum_datapoint_capture_sum dcs :
  sum_datapoint_capture dcs = sum_list ((λ dc, sum_list (ints_in dc)) <$> dcs).
Proof.
  unfold sum_datapoint_capture.
  assert (∀ acc, foldl (λ total dc, total + sum_list (ints_in dc)) acc dcs
                 = acc + sum_list ((λ dc, sum_list (ints_in dc)) <$> dcs)) as H.
  { induction dcs as [|dc dcs IH]; intros acc; csimpl; [lia|]. rewrite IH. lia. }
  apply H.
Qed.

(** C4: the total capture count is the sum, over the member tokens, of
    the value of every maximal run of decimal digits of the token; the
    count a created file carries in its name is that sum over the
    members of its group. ["100p"] and ["50p"] give 150, and ["10p5s"]
    alone gives 15, the sum of its two integers. *)
Theorem C4_capture_count_sums_all_integers :
  (∀ dcs runs,
     Forall2 digit_runs dcs runs →
     sum_datapoint_capture dcs
     = sum_list ((λ l, sum_list (int_of_digits <$> l)) <$> runs)) ∧
  (∀ dc, ∃ l, digit_runs dc l) ∧
  (∀ load_data listdir key files ids name df,
     Forall2 (member listdir key) files ids →
     combine_group load_data (parsed_files listdir) key files = Created name df →
     ∃ before after,
       name = before +:+ "_" +:+
              str_of_int (sum_datapoint_capture (datapoint_capture <$> ids)) +:+
              "p-1s_" +:+ after) ∧
  digit_runs "10p5s" ["10"; "5"] ∧
  sum_datapoint_capture ["100p"; "50p"] = 150 ∧
  sum_datapoint_capture ["10p5s"] = 15.
Proof.
  split_and!.
  - intros dcs runs Hruns. rewrite sum_datapoint_capture_sum. f_equal.
    induction Hruns as [|dc l dcs runs Hdc _ IH]; [done|]. csimpl. f_equal; [|done].
    unfold ints_in.
    by rewrite (digit_runs_functional _ _ _ Hdc (findall_digit_runs dc)).
  - intros dc. eexists. apply findall_digit_runs.
  - intros load_data listdir key files ids name df Hids Hc.
    destruct (combine_created _ _ _ _ _ _ _ Hids Hc)
      as (i & newest & dfs & _ & _ & _ & _ & _ & _ & ->).
    unfold new_filename.
    exists (newest +:+ "_" +:+ device_chemistry i +:+ "-" +:+ device_pixel i +:+
            "_" +:+ device_configuration i +:+ "-config_" +:+
            str_of_int (find_highest_degradation (device_degradation <$> ids)) +:+
            "daydeg_" +:+ combined_freq_range),
           (voltage_offset i +:+ "_" +:+ voltage_amplitude i +:+ "Vpk.txt").
    by rewrite !Str.app_assoc.
  - apply (runs_digits "10" "p5s"); [done..|].
    apply runs_other; [done|].
    apply (runs_digits "5" "s"); [done..|].
    apply runs_other; [done|]. constructor.
  - reflexivity.
  - reflexivity.
Qed.

(** * The date field *)

Section MapResult.
Context {R R' : Type} (f : R → R').

Lemma rep_fmap c n s (k : string → string → option R) :
  f <$> Re.rep c n s k = Re.rep c n s (λ m r, f <$> k m r).
Proof.
  revert s k. induction n as [|n IH]; intros s k; simpl; [done|].
  destruct s as [|a s]; [done|]. destruct (Re.cmatch c a); [|done]. apply IH.
Qed.

Lemma plus_greedy_fmap c s (k : string → string → option R) :
  f <$> Re.plus_greedy c s k = Re.plus_greedy c s (λ m r, f <$> k m r).
Proof.
  revert k. induction s as [|a s IH]; intros k; simpl; [done|].
  destruct (Re.cmatch c a); [|done]. rewrite <- IH.
  by destruct (Re.plus_greedy c s _).
Qed.

Lemma plus_lazy_fmap c s (k : string → string → option R) :
  f <$> Re.plus_lazy c s k = Re.plus_lazy c s (λ m r, f <$> k m r).
Proof.
  revert k. induction s as [|a s IH]; intros k; simpl; [done|].
  destruct (Re.cmatch c a); [|done]. rewrite <- IH.
  by destruct (k (String a "") s).
Qed.

Lemma rmatch_fmap r s g (k : string → string → Re.captures → option R) :
  f <$> Re.rmatch r s g k = Re.rmatch r s g (λ m s' g', f <$> k m s' g').
Proof.
  revert s g k. induction r as [| | | |r1 IH1 r2 IH2|name r IH];
    intros s g k; simpl.
  - unfold Re.lit. by destruct (Str.strip_prefix l s).
  - apply rep_fmap.
  - apply plus_greedy_fmap.
  - apply plus_lazy_fmap.
  - rewrite IH1. apply rmatch_ext. intros. apply IH2.
  - apply IH.
Qed.
End MapResult.

(** After a token of the date's shape the parser goes on with the other
    eight fields; the date it returns is that token. *)
Lemma parse_filename_date d rest :
  is_Some (date_shape d) →
  parse_filename (d +:+ rest)
  = (λ g, ("date", d) :: g) <$> Re.match_groupdict fields_after_date rest.
Proof.
  intros Hd. unfold parse_filename, Re.match_groupdict.
  rewrite pattern_split, step_date; [|done].
  rewrite rmatch_captures, rmatch_fmap. by apply rmatch_ext.
Qed.

Lemma newest_of_invalid dates d :
  d ∈ dates → strptime_ymd d = None → newest_of dates = None.
Proof.
  intros Hin Hd. destruct (newest_of dates) as [newest|] eqn:E; [|done].
  apply newest_of_elem_of in E as [_ Hall].
  rewrite Forall_forall in Hall. destruct (Hall d Hin) as [? ?]. congruence.
Qed.

(** C9: the parser checks the shape of the date only. For every token
    made of four digits, a hyphen, two digits, a hyphen and two digits,
    parsing goes on with the other eight fields and, when they match,
    returns that token as the date, calendar date or not: so for
    ["2023-99-99"]. The calendar is enforced only by the strict date
    parser of the newest-date computation, which raises on such a token,
    so that no file is created for a group that has one. *)
Theorem C9_date_checked_by_shape_only :
  (∀ y m d, String.length y = 4%nat → String.length m = 2%nat →
            String.length d = 2%nat →
            Is_true (Str.all Re.is_digit (y +:+ m +:+ d)) →
            is_Some (date_shape (y +:+ "-" +:+ m +:+ "-" +:+ d))) ∧
  (∀ token rest,
     is_Some (date_shape token) →
     parse_filename (token +:+ rest)
     = (λ g, ("date", token) :: g) <$> Re.match_groupdict fields_after_date rest) ∧
  parse_filename "2023-99-99_PEDOT-p3_top-config_3daydeg_500k-5kHz_10p-1s_0V_0.5Vpk.txt"
  = Some [("date", "2023-99-99"); ("device_chemistry", "PEDOT");
          ("device_pixel", "p3"); ("device_configuration", "top");
          ("device_degradation", "3daydeg"); ("frequency_range", "500k-5kHz");
          ("datapoint_capture", "10p-1s"); ("voltage_offset", "0V");
          ("voltage_amplitude", "0.5")] ∧
  strptime_ymd "2023-99-99" = None ∧
  (∀ dates d, d ∈ dates → strptime_ymd d = None → newest_of dates = None) ∧
  (∀ load_data listdir key files ids i,
     Forall2 (member listdir key) files ids →
     i ∈ ids → strptime_ymd (date i) = None →
     ∀ name df,
       combine_group load_data (parsed_files listdir) key files ≠ Created name df).
Proof.
  split_and!.
  - intros y m d Hy Hm Hd Hall. rewrite !Str.all_app in Hall.
    apply andb_prop_elim in Hall as [? [? ?]%andb_prop_elim].
    rewrite date_shape_intro; [eauto|done..].
  - apply parse_filename_date.
  - reflexivity.
  - reflexivity.
  - apply newest_of_invalid.
  - intros load_data listdir key files ids i Hids Hi Hd name df Hc.
    destruct (combine_created _ _ _ _ _ _ _ Hids Hc)
      as (_ & newest & _ & _ & _ & Hn & _).
    rewrite (newest_of_invalid _ (date i)) in Hn; [done| |done].
    apply list_elem_of_fmap. eauto.
Qed.

(** * The synthesized file name *)

Definition numeral_char (a : ascii) : bool :=
  Re.is_digit a || bool_decide (a = "-"%char).

Lemma all_impl (p q : ascii → bool) s :
  (∀ a, p a = true → q a = true) →
  Is_true (Str.all p s) → Is_true (Str.all q s).
Proof.
  intros Hpq. induction s as [|a s IH]; [done|]. simpl.
  intros [Ha Hs]%andb_prop_elim. apply andb_prop_intro. split; [|auto].
  apply Is_true_true, Hpq. by apply Is_true_true.
Qed.

Lemma string_of_uint_digits d :
  Is_true (Str.all numeral_char (NilEmpty.string_of_uint d)).
Proof. induction d; simpl; done. Qed.

Lemma str_of_int_numeral n :
  str_of_int n ≠ "" ∧ Is_true (Str.all numeral_char (str_of_int n)).
Proof.
  unfold str_of_int, NilZero.string_of_int, NilZero.string_of_uint.
  destruct (Z.to_int n) as [d|d]; destruct d; simpl; split; try done;
    apply string_of_uint_digits.
Qed.

Lemma numeral_not_underscore a :
  numeral_char a = true → Re.cmatch (Re.Not "_") a = true.
Proof. destruct a as [[] [] [] [] [] [] [] []]; done. Qed.

(** A number followed by a suffix without underscore is a field token. *)
Lemma numbered_token n suffix :
  Is_true (Str.all (Re.cmatch (Re.Not "_")) suffix) →
  token (Re.Not "_") (str_of_int n +:+ suffix).
Proof.
  intros Hs. destruct (str_of_int_numeral n) as [Hne Hall]. split.
  - destruct (str_of_int n); [done|]. by rewrite Str.app_cons.
  - rewrite Str.all_app. apply andb_prop_intro. split; [|done].
    eapply all_impl; [apply numeral_not_underscore|done].
Qed.

(** The identity the batch tool writes into the name of a combined file. *)
Definition synthesized (newest_date : string) (i : identity)
    (highest_degradation total_datapoint_capture : Z) : identity :=
  {| date := newest_date;
     device_chemistry := device_chemistry i;
     device_pixel := device_pixel i;
     device_configuration := device_configuration i;
     device_degradation := str_of_int highest_degradation +:+ "daydeg";
     frequency_range := combined_freq_range;
     datapoint_capture := str_of_int total_datapoint_capture +:+ "p-1s";
     voltage_offset := voltage_offset i;
     voltage_amplitude := voltage_amplitude i |}.

Lemma new_filename_text newest i h t :
  new_filename newest (device_chemistry i) (device_pixel i)
    (device_configuration i) h t (voltage_offset i) (voltage_amplitude i)
  = matched_text (synthesized newest i h t) +:+ ".txt".
Proof.
  unfold new_filename, matched_text, synthesized. simpl.
  rewrite !Str.app_assoc. done.
Qed.

Lemma synthesized_grammatical newest i h t :
  is_Some (date_shape newest) → grammatical i →
  grammatical (synthesized newest i h t).
Proof.
  intros Hd []. split; simpl; try done.
  - by apply numbered_token.
  - by apply numbered_token.
Qed.

(** The claim of the round trip, for one group: whenever the group is
    combined, the name of the file created parses and gives back the
    degradation, frequency range and capture tokens it was made of. *)
Definition round_trips (load_data : string → option DataFrame)
    (listdir : list string) (key : list (string * string))
    (files : list string) : Prop :=
  ∀ name df degradations captures,
    mapM (field (parsed_files listdir) "device_degradation") files
    = Some degradations →
    mapM (field (parsed_files listdir) "datapoint_capture") files
    = Some captures →
    combine_group load_data (parsed_files listdir) key files = Created name df →
    ∃ g, parse_filename name = Some g ∧
         Dict.get "device_degradation" g
         = Some (str_of_int (find_highest_degradation degradations) +:+ "daydeg") ∧
         Dict.get "frequency_range" g = Some combined_freq_range ∧
         Dict.get "datapoint_capture" g
         = Some (str_of_int (sum_datapoint_capture captures) +:+ "p-1s").

(** A directory with one combinable group whose configuration token
    contains the anchor, and whose capture tokens contain a [V]. *)
Definition anchored_listdir : list string :=
  ["2023-01-01_A-1_x-config_y_z-config_3daydeg_500k-5kHz_10Vp_0_1Vpk.txt";
   "2023-01-02_A-1_x-config_y_z-config_3daydeg_5k-200Hz_10Vp_0_1Vpk.txt";
   "2023-01-03_A-1_x-config_y_z-config_3daydeg_200-1Hz_10Vp_0_1Vpk.txt"].

Definition anchored_key : list (string * string) :=
  [("device_chemistry", "A"); ("device_pixel", "1");
   ("device_configuration", "x-config_y_z"); ("voltage_offset", "0");
   ("voltage_amplitude", "1")].

Definition one_row_table (file : string) : option DataFrame :=
  Some {| columns := [frequency_column; "Demod_4_X_A (V)"];
          rows := [ {[ frequency_column := 1000%Q; "Demod_4_X_A (V)" := 2%Q ]} ] |}.

(** C3, as stated, fails: the three files form a combinable group, the
    file created for it is named
    [2023-01-03_A-1_x-config_y_z-config_3daydeg_500k-1Hz_30p-1s_0_1Vpk.txt],
    and that name parses with degradation [y], not [3daydeg]. *)
Lemma C3_round_trip_counterexample :
  (anchored_key, anchored_listdir) ∈ grouped_files (parsed_files anchored_listdir) ∧
  (∃ df, combine_group one_row_table (parsed_files anchored_listdir)
           anchored_key anchored_listdir
         = Created "2023-01-03_A-1_x-config_y_z-config_3daydeg_500k-1Hz_30p-1s_0_1Vpk.txt" df) ∧
  (∃ g, parse_filename "2023-01-03_A-1_x-config_y_z-config_3daydeg_500k-1Hz_30p-1s_0_1Vpk.txt"
        = Some g ∧
        Dict.get "device_degradation" g = Some "y" ∧
        Dict.get "frequency_range" g = Some "z-config" ∧
        Dict.get "datapoint_capture" g = Some "3daydeg") ∧
  ¬ round_trips one_row_table anchored_listdir anchored_key anchored_listdir.
Proof.
  assert (∃ df, combine_group one_row_table (parsed_files anchored_listdir)
                  anchored_key anchored_listdir
                = Created "2023-01-03_A-1_x-config_y_z-config_3daydeg_500k-1Hz_30p-1s_0_1Vpk.txt" df)
    as [df Hdf] by (eexists; vm_compute; reflexivity).
  split_and!.
  - vm_compute. apply list_elem_of_here.
  - by exists df.
  - eexists. split; [vm_compute; reflexivity|]. by vm_compute.
  - intros Hrt.
    destruct (Hrt _ df _ _ eq_refl eq_refl Hdf) as (g & Hg & Hd & _).
    vm_compute in Hg. injection Hg as <-. vm_compute in Hd. discriminate.
Qed.

(** C3 (amended): the name synthesized for a combinable group is the
    text of the nine fields (newest date, the group's chemistry, pixel,
    configuration, offset and amplitude, ["{peak}daydeg"], ["500k-1Hz"],
    ["{total}p-1s"]) followed by [.txt]; these fields are grammatical and
    the name always parses. When the group's configuration does not
    contain the anchor [-config_], parsing the name returns exactly the
    nine synthesized fields, in particular the degradation, frequency
    range and capture tokens. *)
Theorem C3_synthesized_name_parses (load_data : string → option DataFrame)
    (listdir : list string) (key : list (string * string)) (files : list string)
    (name : string) (df : DataFrame) :
  (key, files) ∈ grouped_files (parsed_files listdir) →
  combine_group load_data (parsed_files listdir) key files = Created name df →
  ∃ ids i newest,
    Forall2 (λ file j, parse_filename file = Some (groupdict_of j)) files ids ∧
    i ∈ ids ∧ newest_of (date <$> ids) = Some newest ∧
    let s := synthesized newest i
               (find_highest_degradation (device_degradation <$> ids))
               (sum_datapoint_capture (datapoint_capture <$> ids)) in
    name = matched_text s +:+ ".txt" ∧
    grammatical s ∧
    is_Some (parse_filename name) ∧
    (Str.contains anchor (device_configuration i) = false →
     parse_filename name = Some (groupdict_of s)).
Proof.
  intros [_ [ids Hids]]%group_identities Hc.
  destruct (combine_created _ _ _ _ _ _ _ Hids Hc)
    as (i & newest & dfs & Hi & Hnewest & Hn & _ & _ & _ & ->).
  exists ids, i, newest.
  assert (∀ j, j ∈ ids → grammatical j) as Hgram.
  { intros j Hj. destruct (proj1 (list_elem_of_lookup _ _) Hj) as [n Hn'].
    destruct (Forall2_lookup_r _ _ _ _ _ Hids Hn') as (file & _ & []). done. }
  assert (is_Some (date_shape newest)) as Hshape.
  { apply list_elem_of_fmap in Hnewest as (j & -> & Hj).
    by destruct (Hgram j Hj). }
  split_and!; [|done|done|].
  { eapply Forall2_impl; [exact Hids|]. by intros ?? []. }
  intros s. rewrite new_filename_text. fold s.
  assert (grammatical s) as Hs by (by apply synthesized_grammatical, Hgram).
  split_and!; [done|done|by apply parse_filename_complete|].
  intros Hanchor. by apply parse_filename_first.
Qed.

Definition plain_listdir : list string :=
  ["2023-01-05_PEDOT-p3_top-config_3daydeg_500k-5kHz_100p-1s_0V_0.5Vpk.txt";
   "2023-02-01_PEDOT-p3_top-config_7daydeg_5k-200Hz_50p-1s_0V_0.5Vpk.txt";
   "2022-12-31_PEDOT-p3_top-config_2daydeg_200-1Hz_10p5s_0V_0.5Vpk.txt"].

Definition plain_key : list (string * string) :=
  [("device_chemistry", "PEDOT"); ("device_pixel", "p3");
   ("device_configuration", "top"); ("voltage_offset", "0V");
   ("voltage_amplitude", "0.5")].

Definition plain_name : string :=
  "2023-02-01_PEDOT-p3_top-config_7daydeg_500k-1Hz_167p-1s_0V_0.5Vpk.txt".

Definition plain_df : DataFrame :=
  match combine_group one_row_table (parsed_files plain_listdir)
          plain_key plain_listdir with
  | Created _ df => df
  | _ => {| columns := []; rows := [] |}
  end.

Lemma plain_group :
  (plain_key, plain_listdir) ∈ grouped_files (parsed_files plain_listdir).
Proof. vm_compute. apply list_elem_of_here. Defined.

Lemma plain_created :
  combine_group one_row_table (parsed_files plain_listdir) plain_key plain_listdir
  = Created plain_name plain_df.
Proof. vm_compute. reflexivity. Defined.

Lemma C3_synthesized_name_parses_witness :
  (plain_key, plain_listdir) ∈ grouped_files (parsed_files plain_listdir) ∧
  combine_group one_row_table (parsed_files plain_listdir) plain_key plain_listdir
  = Created plain_name plain_df ∧
  ∃ ids i newest,
    Forall2 (λ file j, parse_filename file = Some (groupdict_of j))
      plain_listdir ids ∧
    i ∈ ids ∧ newest_of (date <$> ids) = Some newest ∧
    let s := synthesized newest i
               (find_highest_degradation (device_degradation <$> ids))
               (sum_datapoint_capture (datapoint_capture <$> ids)) in
    plain_name = matched_text s +:+ ".txt" ∧
    grammatical s ∧
    is_Some (parse_filename plain_name) ∧
    (Str.contains anchor (device_configuration i) = false →
     parse_filename plain_name = Some (groupdict_of s)).
Proof.
  split; [exact plain_group|]. split; [exact plain_created|].
  exact (C3_synthesized_name_parses one_row_table plain_listdir plain_key
           plain_listdir plain_name plain_df plain_group plain_created).
Defined.

(** A directory with two groups: the first has two of the three ranges
    only, the second is the group of [plain_listdir]. *)
Definition partial_listdir : list string :=
  ["2023-01-05_PEDOT-p1_top-config_3daydeg_500k-5kHz_100p-1s_0V_0.5Vpk.txt";
   "2023-01-06_PEDOT-p1_top-config_3daydeg_5k-200Hz_100p-1s_0V_0.5Vpk.txt"].

Definition partial_key : list (string * string) :=
  [("device_chemistry", "PEDOT"); ("device_pixel", "p1");
   ("device_configuration", "top"); ("voltage_offset", "0V");
   ("voltage_amplitude", "0.5")].

Definition mixed_listdir : list string := partial_listdir ++ plain_listdir.

Lemma mixed_groups :
  grouped_files (parsed_files mixed_listdir)
  = [(partial_key, partial_listdir)] ++ (plain_key, plain_listdir) :: [].
Proof. vm_compute. reflexivity. Defined.

(** The run over that directory writes one file, that of the second
    group. *)
Lemma mixed_run :
  run one_row_table mixed_listdir = ([(plain_name, plain_df)], true).
Proof. vm_compute. reflexivity. Defined.

Lemma C1_combines_iff_required_ranges_witness :
  grouped_files (parsed_files mixed_listdir)
  = [(partial_key, partial_listdir)] ++ (plain_key, plain_listdir) :: [] ∧
  run one_row_table mixed_listdir = ([(plain_name, plain_df)], true) ∧
  ∃ ids,
    Forall2 (λ file i, parse_filename file = Some (groupdict_of i))
      plain_listdir ids ∧
    let parsed := parsed_files mixed_listdir in
    let ranges := frequency_range <$> ids in
    let result := combine_group one_row_table parsed plain_key plain_listdir in
    let earlier := (combine_loop one_row_table parsed
                      [(partial_key, partial_listdir)]).1 in
    let later := combine_loop one_row_table parsed [] in
    (list_to_set ranges = required_ranges ↔
       ∀ r, r ∈ ranges ↔ r = "500k-5kHz" ∨ r = "5k-200Hz" ∨ r = "200-1Hz") ∧
    (result = Skipped ↔ list_to_set ranges ≠ required_ranges) ∧
    (list_to_set ranges ⊂ required_ranges ∨
     required_ranges ⊂ list_to_set ranges → result = Skipped) ∧
    (list_to_set ranges = required_ranges ↔
       result = match combine one_row_table parsed plain_key plain_listdir with
                | Some (name, combined_df) => Created name combined_df
                | None => Raised
                end) ∧
    (Forall (λ g, combine_group one_row_table parsed g.1 g.2 ≠ Raised)
       [(partial_key, partial_listdir)] →
       (list_to_set ranges ≠ required_ranges →
          run one_row_table mixed_listdir = (earlier ++ later.1, later.2)) ∧
       (list_to_set ranges = required_ranges →
          ∀ name combined_df,
            combine one_row_table parsed plain_key plain_listdir
            = Some (name, combined_df) →
            run one_row_table mixed_listdir
            = (earlier ++ (name, combined_df) :: later.1, later.2)) ∧
       (list_to_set ranges = required_ranges →
          combine one_row_table parsed plain_key plain_listdir = None →
          run one_row_table mixed_listdir = (earlier, false))) ∧
    (∀ name df, (name, df) ∈ (run one_row_table mixed_listdir).1 →
       ∃ key' files' ids',
         (key', files') ∈ grouped_files (parsed_files mixed_listdir) ∧
         Forall2 (λ file i, parse_filename file = Some (groupdict_of i)) files' ids' ∧
         list_to_set (frequency_range <$> ids') = required_ranges ∧
         combine_group one_row_table (parsed_files mixed_listdir) key' files'
         = Created name df).
Proof.
  split; [exact mixed_groups|]. split; [exact mixed_run|].
  exact (C1_combines_iff_required_ranges one_row_table mixed_listdir
           [(partial_key, partial_listdir)] plain_key plain_listdir []
           mixed_groups).
Defined.

(** A group after one that raises is never examined: the first group of
    this directory has the three ranges and a date that is no calendar
    date, so that its combination step raises; the group of
    [plain_listdir] comes second, has the three ranges, would be combined
    on its own, and gets no file. *)
Definition aborted_listdir : list string :=
  ["2023-99-99_PEDOT-p1_top-config_3daydeg_500k-5kHz_100p-1s_0V_0.5Vpk.txt";
   "2023-01-06_PEDOT-p1_top-config_3daydeg_5k-200Hz_100p-1s_0V_0.5Vpk.txt";
   "2023-01-07_PEDOT-p1_top-config_3daydeg_200-1Hz_100p-1s_0V_0.5Vpk.txt"]
  ++ plain_listdir.

Lemma aborted_run :
  grouped_files (parsed_files aborted_listdir)
  = [(partial_key, take 3 aborted_listdir); (plain_key, plain_listdir)] ∧
  combine_group one_row_table (parsed_files aborted_listdir)
    partial_key (take 3 aborted_listdir) = Raised ∧
  combine_group one_row_table (parsed_files aborted_listdir)
    plain_key plain_listdir = Created plain_name plain_df ∧
  run one_row_table aborted_listdir = ([], false).
Proof. split_and!; vm_compute; reflexivity. Qed.

Lemma plain_listdir_swapped :
  plain_listdir ≡ₚ
  ["2023-02-01_PEDOT-p3_top-config_7daydeg_5k-200Hz_50p-1s_0V_0.5Vpk.txt";
   "2023-01-05_PEDOT-p3_top-config_3daydeg_500k-5kHz_100p-1s_0V_0.5Vpk.txt";
   "2022-12-31_PEDOT-p3_top-config_2daydeg_200-1Hz_10p5s_0V_0.5Vpk.txt"].
Proof. apply perm_swap. Defined.

Lemma C6_grouping_is_partition_witness :
  plain_listdir ≡ₚ
    ["2023-02-01_PEDOT-p3_top-config_7daydeg_5k-200Hz_50p-1s_0V_0.5Vpk.txt";
     "2023-01-05_PEDOT-p3_top-config_3daydeg_500k-5kHz_100p-1s_0V_0.5Vpk.txt";
     "2022-12-31_PEDOT-p3_top-config_2daydeg_200-1Hz_10p5s_0V_0.5Vpk.txt"] ∧
  partitions (group_key batch_excluded) plain_listdir
    ["2023-02-01_PEDOT-p3_top-config_7daydeg_5k-200Hz_50p-1s_0V_0.5Vpk.txt";
     "2023-01-05_PEDOT-p3_top-config_3daydeg_500k-5kHz_100p-1s_0V_0.5Vpk.txt";
     "2022-12-31_PEDOT-p3_top-config_2daydeg_200-1Hz_10p5s_0V_0.5Vpk.txt"] ∧
  partitions (Viewer.viewer_key batch_excluded) plain_listdir
    ["2023-02-01_PEDOT-p3_top-config_7daydeg_5k-200Hz_50p-1s_0V_0.5Vpk.txt";
     "2023-01-05_PEDOT-p3_top-config_3daydeg_500k-5kHz_100p-1s_0V_0.5Vpk.txt";
     "2022-12-31_PEDOT-p3_top-config_2daydeg_200-1Hz_10p5s_0V_0.5Vpk.txt"].
Proof.
  split; [exact plain_listdir_swapped|].
  exact (C6_grouping_is_partition batch_excluded plain_listdir _
           plain_listdir_swapped).
Defined.

Definition csv_file : string :=
  "2023-01-05_PEDOT-p3_top-config_3daydeg_500k-5kHz_100p-1s_0V_0.5Vpk.csv".

Lemma csv_file_parses : is_Some (parse_filename csv_file).
Proof. vm_compute. eexists. reflexivity. Defined.

Lemma C10_only_txt_files_witness :
  is_Some (parse_filename csv_file) ∧
  Str.endswith csv_file ".txt" = false ∧
  (csv_file ∉ txt_files ([] ++ csv_file :: plain_listdir)) ∧
  (csv_file ∉ Dict.keys (parsed_files ([] ++ csv_file :: plain_listdir))) ∧
  (∀ key files,
     (key, files) ∈ grouped_files (parsed_files ([] ++ csv_file :: plain_listdir)) →
     csv_file ∉ files) ∧
  (∀ load_data, run load_data ([] ++ csv_file :: plain_listdir)
                = run load_data ([] ++ plain_listdir)) ∧
  (∀ load_data float sqrt,
     Viewer.group_data load_data float sqrt
       (parsed_files ([] ++ csv_file :: plain_listdir))
     = Viewer.group_data load_data float sqrt (parsed_files ([] ++ plain_listdir))).
Proof.
  split; [exact csv_file_parses|]. split; [reflexivity|].
  exact (C10_only_txt_files csv_file [] plain_listdir csv_file_parses eq_refl).
Defined.

(** * The merged table *)

Lemma elem_of_insert_uniq (f x : Q) l :
  x ∈ insert_uniq Qcompare f l → x = f ∨ x ∈ l.
Proof.
  induction l as [|g l IH]; simpl.
  - intros ->%list_elem_of_singleton. by left.
  - destruct (f ?= g)%Q.
    + by right.
    + intros [->|?]%elem_of_cons; [by left|by right].
    + intros [->|[->|?]%IH]%elem_of_cons.
      * right. apply elem_of_cons; by left.
      * by left.
      * right. apply elem_of_cons; by right.
Qed.

Lemma insert_uniq_covers (f : Q) l :
  (∃ y, y ∈ insert_uniq Qcompare f l ∧ (y == f)%Q) ∧
  (∀ x, x ∈ l → x ∈ insert_uniq Qcompare f l).
Proof.
  induction l as [|g l [(y & Hy & Hyf) IH]]; simpl.
  - split; [|by intros ? ?%elem_of_nil].
    exists f. split; [by apply list_elem_of_singleton|reflexivity].
  - destruct (f ?= g)%Q eqn:E.
    + split; [|done]. exists g. split; [apply elem_of_cons; by left|].
      symmetry. by apply Qeq_alt.
    + split.
      * exists f. split; [apply elem_of_cons; by left|reflexivity].
      * intros x Hx. apply elem_of_cons; by right.
    + split.
      * exists y. split; [apply elem_of_cons; by right|done].
      * intros x [->|Hx]%elem_of_cons; apply elem_of_cons; [by left|right; auto].
Qed.

Lemma insert_uniq_sorted (f : Q) l :
  StronglySorted Qlt l → StronglySorted Qlt (insert_uniq Qcompare f l).
Proof.
  induction l as [|g l IH]; simpl; intros Hl.
  - repeat constructor.
  - apply StronglySorted_cons in Hl as [Hg Hl].
    destruct (f ?= g)%Q eqn:E.
    + by apply StronglySorted_cons.
    + apply Qlt_alt in E. apply StronglySorted_cons. split.
      * constructor; [done|]. eapply Forall_impl; [exact Hg|].
        intros x Hx. simpl in Hx. by etrans.
      * by apply StronglySorted_cons.
    + apply Qgt_alt in E. apply StronglySorted_cons. split; [|auto].
      apply Forall_forall. intros x [->|Hx]%elem_of_insert_uniq; [done|].
      rewrite Forall_forall in Hg. auto.
Qed.

Lemma sort_uniq_sorted (l : list Q) : StronglySorted Qlt (sort_uniq Qcompare l).
Proof.
  induction l as [|f l IH]; simpl; [constructor|]. by apply insert_uniq_sorted.
Qed.

Lemma elem_of_sort_uniq (x : Q) l : x ∈ sort_uniq Qcompare l → x ∈ l.
Proof.
  induction l as [|f l IH]; simpl; [done|].
  intros [->|?]%elem_of_insert_uniq; apply elem_of_cons; auto.
Qed.

Lemma sort_uniq_covers (x : Q) l :
  x ∈ l → ∃ y, y ∈ sort_uniq Qcompare l ∧ (y == x)%Q.
Proof.
  induction l as [|f l IH]; simpl; [by intros ?%elem_of_nil|].
  destruct (insert_uniq_covers f (sort_uniq Qcompare l)) as [Hf Hl].
  intros [->|(y & Hy & Hyx)%IH]%elem_of_cons; [done|].
  exists y. split; [by apply Hl|done].
Qed.

Lemma lookup_aggregate agg cols rs (c : string) :
  aggregate agg cols rs !! c
  = if decide (c ∈ cols) then agg (omap (λ r : gmap string Q, r !! c) rs) else None.
Proof.
  unfold aggregate. induction cols as [|c0 cols IH]; csimpl; [done|].
  destruct (decide (c = c0)) as [->|Hne].
  - rewrite decide_True by (apply elem_of_cons; by left).
    destruct (agg _) as [v|] eqn:E; csimpl.
    + by rewrite lookup_insert_eq.
    + rewrite IH. by destruct (decide _).
  - destruct (agg (omap (λ r : gmap string Q, r !! c0) rs)); csimpl;
      rewrite ?lookup_insert_ne by done; rewrite IH;
      (destruct (decide (c ∈ cols)) as [Hin|Hin];
       [rewrite decide_True; [done|]; apply elem_of_cons; by right
       |rewrite decide_False; [done|]; rewrite elem_of_cons; tauto]).
Qed.

Lemma sort_by_sorted key (row : Q → gmap string Q) keys :
  (∀ f, row f !! key = Some f) → StronglySorted Qlt keys →
  sort_by (key_le key) (row <$> keys) = row <$> keys.
Proof.
  intros Hrow. induction keys as [|f keys IH]; [done|].
  intros [Hf Hkeys]%StronglySorted_cons. csimpl. rewrite IH by done.
  destruct keys as [|f' keys]; [done|]. csimpl.
  unfold key_le. rewrite !Hrow.
  apply Forall_cons in Hf as [Hlt _].
  assert (Qle_bool f f' = true) as ->; [|done].
  apply Qle_bool_iff. by apply Qlt_le_weak.
Qed.

Lemma uniq_fold_spec (acc l : list string) :
  NoDup acc →
  let r := foldl (λ acc c, if decide (c ∈ acc) then acc else acc ++ [c]) acc l in
  NoDup r ∧ ∀ c, c ∈ r ↔ c ∈ acc ∨ c ∈ l.
Proof.
  revert acc. induction l as [|x l IH]; intros acc Hacc; simpl.
  - split; [done|]. intros c. rewrite elem_of_nil. tauto.
  - destruct (decide (x ∈ acc)) as [Hin|Hin].
    + destruct (IH acc Hacc) as [Hnd Hiff]. split; [done|].
      intros c. rewrite Hiff, elem_of_cons. split; [tauto|].
      intros [?|[->|?]]; auto.
    + assert (NoDup (acc ++ [x])) as Hacc'.
      { apply NoDup_app. split_and!; [done| |apply NoDup_singleton].
        intros y Hy ->%list_elem_of_singleton. done. }
      destruct (IH _ Hacc') as [Hnd Hiff]. split; [done|].
      intros c. rewrite Hiff, elem_of_app, list_elem_of_singleton, elem_of_cons.
      tauto.
Qed.

Lemma uniq_spec (l : list string) : NoDup (uniq l) ∧ ∀ c, c ∈ uniq l ↔ c ∈ l.
Proof.
  destruct (uniq_fold_spec [] l (NoDup_nil_2)) as [Hnd Hiff]. split; [done|].
  intros c. unfold uniq. rewrite Hiff, elem_of_nil. tauto.
Qed.

(** The table [combine_dataframes] returns, spelled out. *)
Lemma combine_dataframes_rows dfs out :
  combine_dataframes dfs = Some out →
  let all_rows := mjoin (rows <$> dfs) in
  let others := filter (λ c, c ≠ frequency_column) (uniq (mjoin (columns <$> dfs))) in
  frequency_column ∈ uniq (mjoin (columns <$> dfs)) ∧
  columns out = frequency_column :: others ∧
  rows out = (λ f, <[frequency_column := f]>
                     (aggregate mean others (cluster frequency_column f all_rows)))
             <$> sort_uniq Qcompare (omap (λ r, r !! frequency_column) all_rows).
Proof.
  unfold combine_dataframes, concat.
  destruct dfs as [|df dfs]; [done|]. set (l := df :: dfs). clearbody l.
  simpl. unfold groupby_mean. simpl.
  destruct (decide (frequency_column ∈ uniq (mjoin (columns <$> l)))); [|done].
  simpl. unfold sort_values. simpl.
  intros [= <-]. simpl. split; [done|]. split; [done|].
  apply sort_by_sorted; [|apply sort_uniq_sorted].
  intros f. apply lookup_insert_eq.
Qed.

(** The arithmetic mean: the value whose product with the number of
    cells is their sum; missing when there is no cell. *)
Lemma mean_spec (xs : list Q) :
  match mean xs with
  | Some v =>
      xs ≠ [] ∧ (v * inject_Z (Z.of_nat (length xs)) == foldr Qplus 0 xs)%Q
  | None => xs = []
  end.
Proof.
  destruct xs as [|x xs]; [done|]. split; [done|].
  unfold sum_Q. rewrite Qmult_comm. apply Qmult_div_r.
  unfold Qeq. simpl. lia.
Qed.

Lemma mean_singleton x : ∃ v, mean [x] = Some v ∧ (v == x)%Q.
Proof. eexists. split; [reflexivity|]. simpl. field. Qed.

Lemma mean_pair x y : ∃ v, mean [x; y] = Some v ∧ (v == (x + y) / 2)%Q.
Proof. eexists. split; [reflexivity|]. simpl. field. Qed.

(** The rows [cluster] selects are those whose frequency is [f], each as
    often as it occurs. *)
Lemma cluster_split key f (rs : list (gmap string Q)) :
  rs ≡ₚ cluster key f rs ++ filter (λ r, ¬ key_is key f r) rs ∧
  Forall (λ r, ∃ g, r !! key = Some g ∧ (g == f)%Q) (cluster key f rs) ∧
  Forall (λ r, ∀ g, r !! key = Some g → ¬ (g == f)%Q)
         (filter (λ r, ¬ key_is key f r) rs).
Proof.
  split_and!.
  - symmetry. apply filter_app_complement.
  - apply Forall_forall. intros r [Hr _]%list_elem_of_filter.
    unfold key_is in Hr. destruct (r !! key) as [g|]; [eauto|done].
  - apply Forall_forall. intros r [Hr _]%list_elem_of_filter g Hg.
    unfold key_is in Hr. by rewrite Hg in Hr.
Qed.

(** Two member tables in which 1000 Hz is measured twice, with the
    values 2 and 4, and the table they are merged into. *)
Definition merge_example : list DataFrame :=
  [ {| columns := [frequency_column; "Demod_4_X_A (V)"];
       rows := [ {[ frequency_column := 1000%Q; "Demod_4_X_A (V)" := 2%Q ]};
                 {[ frequency_column := 5000%Q; "Demod_4_X_A (V)" := 7%Q ]} ] |};
    {| columns := [frequency_column; "Demod_4_X_A (V)"];
       rows := [ {[ frequency_column := 1000%Q; "Demod_4_X_A (V)" := 4%Q ]};
                 {[ frequency_column := 10%Q; "Demod_4_X_A (V)" := 1%Q ]} ] |} ].

Definition merge_example_out : DataFrame :=
  {| columns := [frequency_column; "Demod_4_X_A (V)"];
     rows := [ {[ frequency_column := 10%Q; "Demod_4_X_A (V)" := 1%Q ]};
               {[ frequency_column := 1000%Q; "Demod_4_X_A (V)" := (6 # 2)%Q ]};
               {[ frequency_column := 5000%Q; "Demod_4_X_A (V)" := 7%Q ]} ] |}.

(** C2: the table written for a combinable group is that of
    [combine_dataframes] on the tables of the group's files. Its rows are
    in strictly ascending order of frequency, one for each frequency
    that occurs in the concatenated member rows. The concatenated rows
    split into those whose frequency equals that of the row, and the
    others; in every other column the row holds the arithmetic mean of
    the cells the rows of equal frequency have in that column (the value
    whose product with their number is their sum; missing when none has a
    cell). A single row of a frequency keeps its cells, two cells [x]
    and [y] give [(x + y) / 2], and the columns are those of the member
    tables. Of two tables with 2 and 4 at 1000 Hz, 7 at 5000 Hz and 1 at
    10 Hz, the merged table has 1 at 10 Hz, 3 at 1000 Hz and 7 at
    5000 Hz, in this order. *)
Theorem C2_merged_table (load_data : string → option DataFrame)
    (listdir : list string) (key : list (string * string)) (files : list string)
    (name : string) (out : DataFrame) :
  (key, files) ∈ grouped_files (parsed_files listdir) →
  combine_group load_data (parsed_files listdir) key files = Created name out →
  ∃ dfs freqs,
    mapM load_data files = Some dfs ∧
    combine_dataframes dfs = Some out ∧
    let all_rows := mjoin (rows <$> dfs) in
    (λ r, r !! frequency_column) <$> rows out = Some <$> freqs ∧
    StronglySorted Qlt freqs ∧
    (∀ f, f ∈ freqs → ∃ r, r ∈ all_rows ∧ r !! frequency_column = Some f) ∧
    (∀ r f, r ∈ all_rows → r !! frequency_column = Some f →
            ∃ g, g ∈ freqs ∧ (g == f)%Q) ∧
    (∀ c, c ∈ columns out ↔ ∃ df, df ∈ dfs ∧ c ∈ columns df) ∧
    (∀ n r f,
       rows out !! n = Some r → freqs !! n = Some f →
       ∃ same others,
         all_rows ≡ₚ same ++ others ∧
         same ≠ [] ∧
         Forall (λ r', ∃ g, r' !! frequency_column = Some g ∧ (g == f)%Q) same ∧
         Forall (λ r', ∀ g, r' !! frequency_column = Some g → ¬ (g == f)%Q)
                others ∧
         ∀ c, c ∈ columns out → c ≠ frequency_column →
           let cells := omap (λ r' : gmap string Q, r' !! c) same in
           match r !! c with
           | Some v =>
               cells ≠ [] ∧
               (v * inject_Z (Z.of_nat (length cells)) == foldr Qplus 0 cells)%Q
           | None => cells = []
           end ∧
           (∀ r', same = [r'] →
              match r' !! c with
              | Some x => ∃ v, r !! c = Some v ∧ (v == x)%Q
              | None => r !! c = None
              end) ∧
           (∀ x y, cells = [x; y] → ∃ v, r !! c = Some v ∧ (v == (x + y) / 2)%Q)) ∧
    combine_dataframes merge_example = Some merge_example_out ∧
    (6 # 2 == 3)%Q.
Proof.
  intros [_ [ids Hids]]%group_identities Hc.
  destruct (combine_created _ _ _ _ _ _ _ Hids Hc)
    as (_ & _ & dfs & _ & _ & _ & Hload & Hout & _).
  destruct (combine_dataframes_rows _ _ Hout) as (Hfreq & Hcols & Hrows).
  exists dfs, (sort_uniq Qcompare
                 (omap (λ r, r !! frequency_column) (mjoin (rows <$> dfs)))).
  split; [done|]. split; [done|]. cbv zeta.
  split_and!; [| | | | | |vm_compute; reflexivity|reflexivity].
  - rewrite Hrows, <- !list_fmap_compose. apply list_fmap_ext.
    intros i f _. simpl. apply lookup_insert_eq.
  - apply sort_uniq_sorted.
  - intros f (r & Hr & Hf)%elem_of_sort_uniq%list_elem_of_omap. eauto.
  - intros r f Hr Hf. apply sort_uniq_covers, list_elem_of_omap. eauto.
  - intros c. rewrite Hcols, elem_of_cons, list_elem_of_filter.
    destruct (uniq_spec (mjoin (columns <$> dfs))) as [_ Huniq].
    rewrite Huniq in Hfreq |- *.
    assert (∀ c', c' ∈ mjoin (columns <$> dfs) ↔ ∃ df, df ∈ dfs ∧ c' ∈ columns df)
      as Hjoin.
    { intros c'. rewrite list_elem_of_join. split.
      - intros (cols & Hc' & (df & -> & Hdf)%list_elem_of_fmap). eauto.
      - intros (df & Hdf & Hc'). exists (columns df). split; [done|].
        apply list_elem_of_fmap. eauto. }
    rewrite <- Hjoin. split; [intros [->|[_ ?]]; done|].
    intros Hin. destruct (decide (c = frequency_column)); [by left|by right].
  - intros n r f Hn Hf.
    rewrite Hrows, list_lookup_fmap, Hf in Hn. injection Hn as <-.
    destruct (cluster_split frequency_column f (mjoin (rows <$> dfs)))
      as (Hperm & Hsame & Hothers).
    exists (cluster frequency_column f (mjoin (rows <$> dfs))),
           (filter (λ r, ¬ key_is frequency_column f r) (mjoin (rows <$> dfs))).
    split_and!; [done| |done|done|].
    { apply list_elem_of_lookup_2, elem_of_sort_uniq, list_elem_of_omap in Hf
        as (r0 & Hr0 & Hf0).
      intros Hnil.
      assert (r0 ∈ cluster frequency_column f (mjoin (rows <$> dfs))) as Hin.
      { apply list_elem_of_filter. split; [|done].
        unfold key_is. rewrite Hf0. reflexivity. }
      rewrite Hnil in Hin. by apply elem_of_nil in Hin. }
    intros c Hc' Hne.
    set (same := cluster frequency_column f (mjoin (rows <$> dfs))).
    set (cells := omap (λ r' : gmap string Q, r' !! c) same).
    assert (<[frequency_column:=f]>
              (aggregate mean
                 (filter (λ c, c ≠ frequency_column) (uniq (mjoin (columns <$> dfs))))
                 same) !! c
            = mean cells) as Hmean.
    { rewrite lookup_insert_ne by done. rewrite lookup_aggregate.
      rewrite decide_True; [done|]. rewrite Hcols in Hc'.
      apply elem_of_cons in Hc' as [?|?]; done. }
    rewrite Hmean. split_and!.
    + apply mean_spec.
    + intros r' Hone. unfold cells. rewrite Hone. csimpl.
      destruct (r' !! c) as [x|]; [apply mean_singleton|done].
    + intros x y ->. apply mean_pair.
Qed.

(** Three member tables: 1000 Hz is measured twice, with 2 and 4. *)
Definition example_tables (file : string) : option DataFrame :=
  Some {| columns := [frequency_column; "Demod_4_X_A (V)"];
          rows :=
            if decide (file = "2023-01-05_PEDOT-p3_top-config_3daydeg_500k-5kHz_100p-1s_0V_0.5Vpk.txt")
            then [ {[ frequency_column := 1000%Q; "Demod_4_X_A (V)" := 2%Q ]};
                   {[ frequency_column := 5000%Q; "Demod_4_X_A (V)" := 7%Q ]} ]
            else if decide (file = "2023-02-01_PEDOT-p3_top-config_7daydeg_5k-200Hz_50p-1s_0V_0.5Vpk.txt")
            then [ {[ frequency_column := 1000%Q; "Demod_4_X_A (V)" := 4%Q ]} ]
            else [ {[ frequency_column := 10%Q; "Demod_4_X_A (V)" := 1%Q ]} ] |}.

(** The merged table of the example: 10, 1000 and 5000 Hz, with the
    mean 3 at 1000 Hz. *)
Definition example_out : DataFrame :=
  {| columns := [frequency_column; "Demod_4_X_A (V)"];
     rows := [ {[ frequency_column := 10%Q; "Demod_4_X_A (V)" := 1%Q ]};
               {[ frequency_column := 1000%Q; "Demod_4_X_A (V)" := (6 # 2)%Q ]};
               {[ frequency_column := 5000%Q; "Demod_4_X_A (V)" := 7%Q ]} ] |}.

Lemma example_created :
  combine_group example_tables (parsed_files plain_listdir) plain_key plain_listdir
  = Created plain_name example_out.
Proof. vm_compute. reflexivity. Defined.

Lemma C2_merged_table_witness :
  (plain_key, plain_listdir) ∈ grouped_files (parsed_files plain_listdir) ∧
  combine_group example_tables (parsed_files plain_listdir) plain_key plain_listdir
  = Created plain_name example_out ∧
  ∃ dfs freqs,
    mapM example_tables plain_listdir = Some dfs ∧
    combine_dataframes dfs = Some example_out ∧
    let all_rows := mjoin (rows <$> dfs) in
    (λ r, r !! frequency_column) <$> rows example_out = Some <$> freqs ∧
    StronglySorted Qlt freqs ∧
    (∀ f, f ∈ freqs → ∃ r, r ∈ all_rows ∧ r !! frequency_column = Some f) ∧
    (∀ r f, r ∈ all_rows → r !! frequency_column = Some f →
            ∃ g, g ∈ freqs ∧ (g == f)%Q) ∧
    (∀ c, c ∈ columns example_out ↔ ∃ df, df ∈ dfs ∧ c ∈ columns df) ∧
    (∀ n r f,
       rows example_out !! n = Some r → freqs !! n = Some f →
       ∃ same others,
         all_rows ≡ₚ same ++ others ∧
         same ≠ [] ∧
         Forall (λ r', ∃ g, r' !! frequency_column = Some g ∧ (g == f)%Q) same ∧
         Forall (λ r', ∀ g, r' !! frequency_column = Some g → ¬ (g == f)%Q)
                others ∧
         ∀ c, c ∈ columns example_out → c ≠ frequency_column →
           let cells := omap (λ r' : gmap string Q, r' !! c) same in
           match r !! c with
           | Some v =>
               cells ≠ [] ∧
               (v * inject_Z (Z.of_nat (length cells)) == foldr Qplus 0 cells)%Q
           | None => cells = []
           end ∧
           (∀ r', same = [r'] →
              match r' !! c with
              | Some x => ∃ v, r !! c = Some v ∧ (v == x)%Q
              | None => r !! c = None
              end) ∧
           (∀ x y, cells = [x; y] → ∃ v, r !! c = Some v ∧ (v == (x + y) / 2)%Q)) ∧
    combine_dataframes merge_example = Some merge_example_out ∧
    (6 # 2 == 3)%Q.
Proof.
  split; [exact plain_group|]. split; [exact example_created|].
  exact (C2_merged_table example_tables plain_listdir plain_key plain_listdir
           plain_name example_out plain_group example_created).
Defined.

(** * The viewer's derived column *)

(** [float] on the amplitudes of the examples. *)
Definition example_float (s : string) : option Q :=
  if decide (s = "1") then Some 1%Q
  else if decide (s = "0.5") then Some 0.5%Q
  else None.




Lemma normalized_vout_unit :
  (Viewer.normalized_vout 0.7071 1 == 99.998082)%Q.
Proof. reflexivity. Qed.






(** * The viewer's statistics *)

Lemma statistics_Some sqrt dfs mean_df std_df :
  Viewer.statistics sqrt dfs = Some (mean_df, std_df) →
  let rs := mjoin (Viewer.lrows <$> dfs) in
  let numeric_cols := filter (λ c, c ≠ Viewer.chemistry_column)
                        (uniq (mjoin (Viewer.lcolumns <$> dfs))) in
  frequency_column ∈ numeric_cols ∧
  mean_df = Viewer.groupby_stat mean numeric_cols rs ∧
  std_df = Viewer.groupby_stat (Viewer.std sqrt) numeric_cols rs.
Proof.
  unfold Viewer.statistics. destruct dfs as [|df dfs]; [done|].
  destruct (decide _) as [Hin|]; [|done]. intros [= <- <-].
  split; [|done]. apply list_elem_of_filter. done.
Qed.

Lemma statistics_is_Some sqrt dfs :
  dfs ≠ [] → frequency_column ∈ uniq (mjoin (Viewer.lcolumns <$> dfs)) →
  is_Some (Viewer.statistics sqrt dfs).
Proof.
  intros Hne Hin. unfold Viewer.statistics. destruct dfs as [|df dfs]; [done|].
  rewrite decide_True by done. eauto.
Qed.

(** ** The tables of a group, file by file *)

Lemma elem_of_add_column (c x : string) cols :
  x ∈ Viewer.add_column c cols ↔ x = c ∨ x ∈ cols.
Proof.
  unfold Viewer.add_column. destruct (decide (c ∈ cols)) as [Hin|Hin].
  - split; [by right|]. intros [->|?]; done.
  - rewrite elem_of_app, list_elem_of_singleton. tauto.
Qed.

Lemma prepare_amplitude_column float metadata df lf :
  Viewer.prepare float metadata df = Some lf →
  Viewer.amplitude_column ∈ Viewer.lcolumns lf.
Proof.
  unfold Viewer.prepare.
  destruct (Dict.get "voltage_amplitude" metadata ≫= float); [|done]. simpl.
  destruct (Dict.get "device_chemistry" metadata); [|done]. simpl.
  destruct (decide _); [|done]. intros [= <-]. simpl.
  rewrite !elem_of_add_column. tauto.
Qed.

Section ViewerGroups.
Variable load_data : string → option DataFrame.
Variable float : string → option Q.

(** The prepared table of a parsed file: loaded, with the amplitude,
    chemistry and normalized-output columns. *)
Definition prepared (fm : string * Re.captures) : option Viewer.LabelledFrame :=
  load_data fm.1 ≫= Viewer.prepare float fm.2.

(** The prepared tables of the parsed files whose viewer key is [key],
    in the order of the files. *)
Definition frames_of (key : list string) (parsed : list (string * Re.captures))
    : list Viewer.LabelledFrame :=
  omap (λ fm, if decide (Viewer.viewer_key Viewer.viewer_excluded fm.2 = key)
              then prepared fm else None) parsed.

Lemma grouped_data_spec parsed :
  match Viewer.grouped_data load_data float parsed with
  | None => ∃ fm, fm ∈ parsed ∧ prepared fm = None
  | Some grouped =>
      (∀ fm, fm ∈ parsed → is_Some (prepared fm)) ∧
      NoDup (Dict.keys grouped) ∧
      ∀ key, Dict.get key grouped
             = match frames_of key parsed with
               | [] => None
               | frames => Some frames
               end
  end.
Proof.
  unfold Viewer.grouped_data, frames_of.
  induction parsed as [|fm parsed IH] using rev_ind.
  { simpl. split; [by intros ? ?%elem_of_nil|]. split; [constructor|done]. }
  rewrite foldl_app. simpl.
  destruct (foldl _ (Some []) parsed) as [grouped|]; simpl.
  - destruct IH as (Hall & Hnd & Hget).
    fold (prepared fm). unfold prepared at 1.
    destruct (load_data fm.1) as [df|] eqn:El; simpl.
    + destruct (Viewer.prepare float fm.2 df) as [lf|] eqn:Ep; simpl.
      * assert (prepared fm = Some lf) as Hfm
          by (unfold prepared; rewrite El; simpl; done).
        split_and!.
        -- intros fm' [Hin| ->%list_elem_of_singleton]%elem_of_app.
           ++ exact (Hall _ Hin).
           ++ exists lf. exact Hfm.
        -- by apply NoDup_keys_set.
        -- intros key. rewrite get_set, omap_app. csimpl.
           destruct (decide (key = Viewer.viewer_key Viewer.viewer_excluded fm.2))
             as [->|Hne].
           ++ rewrite decide_True by done. rewrite Hfm, Hget. csimpl.
              by destruct (omap _ parsed).
           ++ rewrite decide_False by done. csimpl. by rewrite app_nil_r.
      * exists fm. split; [apply elem_of_app; right; apply list_elem_of_here|].
        unfold prepared. rewrite El. done.
    + exists fm. split; [apply elem_of_app; right; apply list_elem_of_here|].
      unfold prepared. by rewrite El.
  - destruct IH as (fm' & Hin & Hnone). exists fm'.
    split; [apply elem_of_app; by left|done].
Qed.

(** An entry of the result of [group_data] holds the statistics of the
    tables of the files of its key. *)
Lemma group_data_entry sqrt parsed results key stats :
  Viewer.group_data load_data float sqrt parsed = Some results →
  (key, stats) ∈ results →
  Viewer.statistics sqrt (frames_of key parsed) = Some stats.
Proof.
  unfold Viewer.group_data.
  pose proof (grouped_data_spec parsed) as Hspec.
  destruct (Viewer.grouped_data load_data float parsed) as [grouped|]; [|done].
  destruct Hspec as (_ & Hnd & Hget).
  simpl. intros HM%mapM_Some Hin.
  destruct (proj1 (list_elem_of_lookup _ _) Hin) as [n Hn].
  destruct (Forall2_lookup_r _ _ _ _ _ HM Hn) as ([k dfs] & Hk & Hs).
  simpl in Hs. destruct (Viewer.statistics sqrt dfs) as [res|] eqn:E; [|done].
  simpl in Hs. injection Hs as -> ->.
  apply list_elem_of_lookup_2, (elem_of_get _ _ _ Hnd) in Hk.
  rewrite Hget in Hk. destruct (frames_of key parsed); [done|].
  by injection Hk as <-.
Qed.

Lemma frames_of_amplitude_column key parsed lf :
  lf ∈ frames_of key parsed → Viewer.amplitude_column ∈ Viewer.lcolumns lf.
Proof.
  unfold frames_of. intros (fm & _ & Hfm)%list_elem_of_omap.
  destruct (decide _); [|done]. unfold prepared in Hfm.
  destruct (load_data fm.1) as [df|]; [|done]. simpl in Hfm.
  by eapply prepare_amplitude_column.
Qed.
End ViewerGroups.

(** ** The index of the statistics *)

Lemma string_compare_refl (s : string) : String.compare s s = Eq.
Proof.
  pose proof (String.compare_antisym s s) as H.
  by destruct (String.compare s s).
Qed.

(** Two indices compare equal exactly when they are the same
    combination of chemistry, amplitude and frequency. *)
Lemma index_compare_Eq (i j : Viewer.index) :
  Viewer.index_compare i j = Eq ↔
  i.1.1 = j.1.1 ∧ (i.1.2 == j.1.2)%Q ∧ (i.2 == j.2)%Q.
Proof.
  unfold Viewer.index_compare.
  destruct (String.compare i.1.1 j.1.1) eqn:Es.
  - apply String.compare_eq_iff in Es.
    destruct (Qcompare i.1.2 j.1.2) eqn:Ea.
    + apply Qeq_alt in Ea. rewrite <- Qeq_alt. tauto.
    + split; [done|]. intros (_ & Ha & _). apply Qeq_alt in Ha. congruence.
    + split; [done|]. intros (_ & Ha & _). apply Qeq_alt in Ha. congruence.
  - split; [done|]. intros [Hs _]. rewrite Hs, string_compare_refl in Es. done.
  - split; [done|]. intros [Hs _]. rewrite Hs, string_compare_refl in Es. done.
Qed.

Section SortUniq.
Context {A : Type} (cmp : A → A → comparison).

Lemma insert_uniq_keeps (a : A) l :
  (∃ b, b ∈ insert_uniq cmp a l ∧ (b = a ∨ cmp a b = Eq)) ∧
  (∀ b, b ∈ l → b ∈ insert_uniq cmp a l).
Proof.
  induction l as [|c l [(b & Hb & Hba) IH]]; simpl.
  - split; [|by intros ? ?%elem_of_nil].
    exists a. split; [by apply list_elem_of_singleton|by left].
  - destruct (cmp a c) eqn:E.
    + split; [|done]. exists c. split; [apply elem_of_cons; by left|by right].
    + split.
      * exists a. split; [apply elem_of_cons; by left|by left].
      * intros b' Hb'. apply elem_of_cons; by right.
    + split.
      * exists b. split; [apply elem_of_cons; by right|done].
      * intros b' [->|Hb']%elem_of_cons; apply elem_of_cons; [by left|right; auto].
Qed.

Lemma sort_uniq_keeps (a : A) l :
  (∀ b c, cmp a b = Eq → cmp b c = Eq → cmp a c = Eq) →
  a ∈ l → ∃ b, b ∈ sort_uniq cmp l ∧ (b = a ∨ cmp a b = Eq).
Proof.
  intros Htrans. induction l as [|c l IH]; simpl; [by intros ?%elem_of_nil|].
  destruct (insert_uniq_keeps c (sort_uniq cmp l)) as [(b & Hb & Hbc) Hl].
  intros [->|(b' & Hb' & Hba)%IH]%elem_of_cons.
  - by exists b.
  - exists b'. split; [by apply Hl|done].
Qed.
End SortUniq.

Lemma filter_none {A} (P : A → Prop) `{∀ x, Decision (P x)} (l : list A) :
  Forall (λ x, ¬ P x) l → filter P l = [].
Proof.
  induction 1 as [|x l Hx _ IH]; [done|].
  by rewrite filter_cons, decide_False.
Qed.

Lemma aggregate_empty agg cols (rs : list (gmap string Q)) :
  (∀ c, agg (omap (λ r : gmap string Q, r !! c) rs) = None) →
  aggregate agg cols rs = ∅.
Proof.
  intros Hagg. apply map_empty. intros c. rewrite lookup_aggregate, Hagg.
  by destruct (decide _).
Qed.

(** The rows of a chemistry and amplitude, in a table of statistics. *)
Lemma xs_groupby_stat agg cols rs chemistry voltage :
  let selected :=
    filter (λ i : Viewer.index, i.1.1 = chemistry ∧ (i.1.2 == voltage)%Q)
           (sort_uniq Viewer.index_compare (omap Viewer.index_of rs)) in
  selected ≠ [] →
  Viewer.xs chemistry voltage (Viewer.groupby_stat agg cols rs)
  = Some ((λ i, aggregate agg cols
                  (Viewer.cells <$> filter (Viewer.index_is i) rs))
          <$> selected).
Proof.
  intros selected Hne. unfold Viewer.xs, Viewer.groupby_stat.
  assert (∀ l : list Viewer.index,
            filter (λ e : Viewer.index * gmap string Q,
                      e.1.1.1 = chemistry ∧ (e.1.1.2 == voltage)%Q)
                   ((λ i, (i, aggregate agg cols
                                (Viewer.cells <$> filter (Viewer.index_is i) rs)))
                    <$> l)
            = (λ i, (i, aggregate agg cols
                          (Viewer.cells <$> filter (Viewer.index_is i) rs)))
              <$> filter (λ i : Viewer.index,
                            i.1.1 = chemistry ∧ (i.1.2 == voltage)%Q) l) as ->.
  { induction l as [|i l IH]; [done|]. csimpl. rewrite !filter_cons. simpl.
    destruct (decide _); csimpl; by rewrite IH. }
  fold selected. destruct selected as [|i selected]; [done|].
  csimpl. f_equal. f_equal. rewrite <- list_fmap_compose. done.
Qed.

(** C8: the statistics of a viewer group are those of the prepared
    tables of the group's files. When exactly one of their rows has a
    given chemistry, amplitude and frequency (the others differ in one
    of the three), both tables have an entry for that combination, at
    the same place: the entry of the standard deviation has no cell at
    all (missing in every column, so not zero), the entry of the mean
    has the row's value in every numeric column where the row has one,
    the frequency and the amplitude among them. The trace built from the
    two tables for that chemistry and amplitude, and any column of them,
    does not raise: it has a point for the combination with the mean as
    its coordinates and, when error bars are shown, a missing value as
    its error, the arrays having one length. Computing the statistics
    fails only without a table or a frequency column. *)
Theorem C8_single_sample_std_missing (load_data : string → option DataFrame)
    (float : string → option Q) (sqrt : Q → Q) (listdir : list string)
    (results : list (list string *
                 (list (Viewer.index * gmap string Q) *
                  list (Viewer.index * gmap string Q))))
    (key : list string)
    (mean_df std_df : list (Viewer.index * gmap string Q))
    (r0 : Viewer.labelled) (a f : Q) (others : list Viewer.labelled) :
  Viewer.group_data load_data float sqrt (parsed_files listdir) = Some results →
  (key, (mean_df, std_df)) ∈ results →
  mjoin (Viewer.lrows <$> frames_of load_data float key (parsed_files listdir))
    ≡ₚ r0 :: others →
  Viewer.cells r0 !! Viewer.amplitude_column = Some a →
  Viewer.cells r0 !! frequency_column = Some f →
  Forall (λ r, ¬ (Viewer.chemistry r = Viewer.chemistry r0 ∧
                  (∃ a', Viewer.cells r !! Viewer.amplitude_column = Some a' ∧
                         (a' == a)%Q) ∧
                  (∃ f', Viewer.cells r !! frequency_column = Some f' ∧
                         (f' == f)%Q))) others →
  let dfs := frames_of load_data float key (parsed_files listdir) in
  let numeric_cols := filter (λ c, c ≠ Viewer.chemistry_column)
                        (uniq (mjoin (Viewer.lcolumns <$> dfs))) in
  Viewer.statistics sqrt dfs = Some (mean_df, std_df) ∧
  mean_df.*1 = std_df.*1 ∧
  (∃ n i mrow srow,
     mean_df !! n = Some (i, mrow) ∧ std_df !! n = Some (i, srow) ∧
     i.1.1 = Viewer.chemistry r0 ∧ (i.1.2 == a)%Q ∧ (i.2 == f)%Q ∧
     srow = ∅ ∧
     (∀ c, srow !! c = None ∧ srow !! c ≠ Some 0%Q) ∧
     (∀ c x, c ∈ numeric_cols → Viewer.cells r0 !! c = Some x →
        ∃ v, mrow !! c = Some v ∧ (v == x)%Q) ∧
     (∃ v, mrow !! frequency_column = Some v ∧ (v == f)%Q) ∧
     (∃ v, mrow !! Viewer.amplitude_column = Some v ∧ (v == a)%Q) ∧
     (∀ show_error_bars y_column, y_column ∈ numeric_cols →
        ∃ t k,
          Viewer.add_scatter numeric_cols show_error_bars mean_df std_df
            (Viewer.chemistry r0) i.1.2 y_column = Some t ∧
          length (Viewer.y t) = length (Viewer.x t) ∧
          Viewer.x t !! k = Some (mrow !! frequency_column) ∧
          Viewer.y t !! k = Some (mrow !! y_column) ∧
          Viewer.error_y_visible t = show_error_bars ∧
          match Viewer.error_y_array t with
          | Some array =>
              show_error_bars = true ∧
              length array = length (Viewer.x t) ∧
              array !! k = Some None
          | None => show_error_bars = false
          end)) ∧
  (∀ dfs', dfs' ≠ [] →
     frequency_column ∈ uniq (mjoin (Viewer.lcolumns <$> dfs')) →
     is_Some (Viewer.statistics sqrt dfs')).
Proof.
  intros Hg Hin Hperm Ha Hf Hothers dfs numeric_cols.
  pose proof (group_data_entry _ _ _ _ _ _ _ Hg Hin) as Hs. fold dfs in Hs.
  destruct (statistics_Some _ _ _ _ Hs) as (Hfreq & -> & ->).
  fold dfs in Hperm. fold numeric_cols in Hfreq |- *.
  set (rs := mjoin (Viewer.lrows <$> dfs)) in *.
  split; [done|]. split.
  { unfold Viewer.groupby_stat. rewrite <- !list_fmap_compose.
    by apply list_fmap_ext. }
  split; [|apply statistics_is_Some].
  (* the index of the row, and its place *)
  set (i0 := (Viewer.chemistry r0, a, f) : Viewer.index).
  assert (Viewer.index_of r0 = Some i0) as Hi0.
  { unfold Viewer.index_of. rewrite Ha, Hf. done. }
  assert (r0 ∈ rs) as Hr0.
  { rewrite Hperm. apply list_elem_of_here. }
  assert (i0 ∈ omap Viewer.index_of rs) as Hi0in.
  { apply list_elem_of_omap. eauto. }
  assert (∀ b c, Viewer.index_compare i0 b = Eq → Viewer.index_compare b c = Eq →
                 Viewer.index_compare i0 c = Eq) as Htrans.
  { intros b c (Hb1 & Hb2 & Hb3)%index_compare_Eq
           (Hc1 & Hc2 & Hc3)%index_compare_Eq.
    apply index_compare_Eq. split_and!; [congruence| |]; by etrans. }
  destruct (sort_uniq_keeps Viewer.index_compare i0
              (omap Viewer.index_of rs) Htrans Hi0in) as (i & Hi & Hsame).
  assert (Viewer.index_compare i0 i = Eq) as Hcmp.
  { destruct Hsame as [->|?]; [|done]. apply index_compare_Eq.
    split_and!; reflexivity. }
  clear Hsame. pose proof Hcmp as (Hc1 & Hc2 & Hc3)%index_compare_Eq.
  simpl in Hc1, Hc2, Hc3.
  destruct (proj1 (list_elem_of_lookup _ _) Hi) as [n Hn].
  (* the rows of the combination *)
  assert (filter (Viewer.index_is i) rs = [r0]) as Hone.
  { apply Permutation_singleton_r. rewrite Hperm, filter_cons.
    rewrite decide_True by (unfold Viewer.index_is; by rewrite Hi0).
    apply Permutation_skip.
    assert (filter (Viewer.index_is i) others = []) as ->; [|done].
    apply filter_none. eapply Forall_impl; [exact Hothers|].
    intros r Hr Hr'. apply Hr. unfold Viewer.index_is, Viewer.index_of in Hr'.
    destruct (Viewer.cells r !! Viewer.amplitude_column) as [a'|]; [|done].
    destruct (Viewer.cells r !! frequency_column) as [f'|]; [|done].
    simpl in Hr'. apply index_compare_Eq in Hr' as (Hr1 & Hr2 & Hr3).
    simpl in Hr1, Hr2, Hr3. split_and!.
    - congruence.
    - exists a'. split; [done|]. by rewrite Hr2, <- Hc2.
    - exists f'. split; [done|]. by rewrite Hr3, <- Hc3. }
  set (mrow := aggregate mean numeric_cols (Viewer.cells <$> [r0])).
  set (srow := aggregate (Viewer.std sqrt) numeric_cols (Viewer.cells <$> [r0])).
  assert (srow = ∅) as Hsrow.
  { apply aggregate_empty. intros c. csimpl.
    by destruct (Viewer.cells r0 !! c). }
  assert (∀ c x, c ∈ numeric_cols → Viewer.cells r0 !! c = Some x →
            ∃ v, mrow !! c = Some v ∧ (v == x)%Q) as Hmrow.
  { intros c x Hc Hx. unfold mrow. rewrite lookup_aggregate, decide_True by done.
    csimpl. rewrite Hx. apply mean_singleton. }
  assert (Viewer.amplitude_column ∈ numeric_cols) as Hamp.
  { apply list_elem_of_filter. split; [done|].
    destruct dfs as [|lf dfs'] eqn:Edfs.
    - exfalso. by apply elem_of_nil in Hr0.
    - apply uniq_spec, list_elem_of_join. exists (Viewer.lcolumns lf).
      split; [|apply list_elem_of_here].
      apply (frames_of_amplitude_column load_data float key (parsed_files listdir)).
      fold dfs. rewrite Edfs. apply list_elem_of_here. }
  exists n, i, mrow, srow. split_and!.
  - unfold Viewer.groupby_stat. rewrite list_lookup_fmap, Hn. simpl.
    by rewrite Hone.
  - unfold Viewer.groupby_stat. rewrite list_lookup_fmap, Hn. simpl.
    by rewrite Hone.
  - done.
  - by symmetry.
  - by symmetry.
  - done.
  - intros c. rewrite Hsrow, lookup_empty. done.
  - done.
  - by apply Hmrow.
  - by apply Hmrow.
  - intros show_error_bars y_column Hy.
    set (selected :=
           filter (λ j : Viewer.index,
                     j.1.1 = Viewer.chemistry r0 ∧ (j.1.2 == i.1.2)%Q)
                  (sort_uniq Viewer.index_compare (omap Viewer.index_of rs))).
    assert (i ∈ selected) as Hsel.
    { apply list_elem_of_filter. split; [|done]. split; [done|reflexivity]. }
    destruct (proj1 (list_elem_of_lookup _ _) Hsel) as [k Hk].
    assert (selected ≠ []) as Hne.
    { intros E. rewrite E in Hsel. by apply elem_of_nil in Hsel. }
    unfold Viewer.add_scatter.
    rewrite !xs_groupby_stat by done. fold selected. simpl.
    unfold Viewer.getitem. rewrite !decide_True by done. simpl.
    destruct show_error_bars; simpl.
    + eexists _, k. split; [reflexivity|]. simpl.
      rewrite !length_fmap, !list_lookup_fmap, Hk. simpl. rewrite Hone.
      fold mrow srow. rewrite Hsrow, lookup_empty. done.
    + eexists _, k. split; [reflexivity|]. simpl.
      rewrite !length_fmap, !list_lookup_fmap, Hk. simpl. rewrite Hone.
      fold mrow. done.
Qed.

(** The statistics of the example directory, with the identity in the
    place of the square root. The first file is a group of its own; its
    table has one row at 1000 Hz and one at 5000 Hz. *)
Definition example_key : list string := ["top"; "500k-5kHz"; "100p-1s"; "0V"].

Definition example_results
    : list (list string *
            (list (Viewer.index * gmap string Q) *
             list (Viewer.index * gmap string Q))) :=
  default [] (Viewer.group_data example_tables example_float (λ q, q)
                (parsed_files plain_listdir)).

Definition example_stats
    : list (Viewer.index * gmap string Q) * list (Viewer.index * gmap string Q) :=
  default ([], []) (Dict.get example_key example_results).

Definition example_row : Viewer.labelled :=
  Viewer.normalize_row 0.5 "PEDOT"
    {[ frequency_column := 1000%Q; "Demod_4_X_A (V)" := 2%Q ]}.

Definition example_others : list Viewer.labelled :=
  [ Viewer.normalize_row 0.5 "PEDOT"
      {[ frequency_column := 5000%Q; "Demod_4_X_A (V)" := 7%Q ]} ].

Lemma example_group_data :
  Viewer.group_data example_tables example_float (λ q, q)
    (parsed_files plain_listdir)
  = Some example_results.
Proof. vm_compute. reflexivity. Defined.

Lemma example_entry_elem_of :
  (example_key, (example_stats.1, example_stats.2)) ∈ example_results.
Proof. vm_compute. apply list_elem_of_here. Defined.

Lemma example_rows :
  mjoin (Viewer.lrows <$> frames_of example_tables example_float example_key
                            (parsed_files plain_listdir))
  ≡ₚ example_row :: example_others.
Proof. vm_compute. reflexivity. Defined.

Lemma example_others_differ :
  Forall (λ r, ¬ (Viewer.chemistry r = Viewer.chemistry example_row ∧
                  (∃ a', Viewer.cells r !! Viewer.amplitude_column = Some a' ∧
                         (a' == 0.5)%Q) ∧
                  (∃ f', Viewer.cells r !! frequency_column = Some f' ∧
                         (f' == 1000)%Q))) example_others.
Proof.
  repeat constructor. intros (_ & _ & f' & Hf & Heq).
  vm_compute in Hf. injection Hf as <-. vm_compute in Heq. discriminate.
Defined.

(** The two tables of the example, and the trace of its chemistry and
    amplitude: both combinations have a mean and no standard deviation,
    and the error of both points is missing. *)
Lemma example_tables_of_statistics :
  (λ e : Viewer.index * gmap string Q, (e.1, e.2 !! Viewer.primary_channel))
    <$> example_stats.1
  = [(("PEDOT", 0.5%Q, 1000%Q), Some 2%Q); (("PEDOT", 0.5%Q, 5000%Q), Some 7%Q)] ∧
  (λ e : Viewer.index * gmap string Q, (e.1, map_to_list e.2))
    <$> example_stats.2
  = [(("PEDOT", 0.5%Q, 1000%Q), []); (("PEDOT", 0.5%Q, 5000%Q), [])] ∧
  Viewer.add_scatter
    [frequency_column; Viewer.primary_channel; Viewer.amplitude_column;
     Viewer.normalized_column]
    true example_stats.1 example_stats.2 "PEDOT" 0.5 Viewer.primary_channel
  = Some {| Viewer.x := [Some 1000%Q; Some 5000%Q];
            Viewer.y := [Some 2%Q; Some 7%Q];
            Viewer.error_y_array := Some [None; None];
            Viewer.error_y_visible := true |}.
Proof. split_and!; vm_compute; reflexivity. Qed.

Lemma C8_single_sample_std_missing_witness :
  Viewer.group_data example_tables example_float (λ q, q)
    (parsed_files plain_listdir)
  = Some example_results ∧
  (example_key, (example_stats.1, example_stats.2)) ∈ example_results ∧
  mjoin (Viewer.lrows <$> frames_of example_tables example_float example_key
                            (parsed_files plain_listdir))
  ≡ₚ example_row :: example_others ∧
  Viewer.cells example_row !! Viewer.amplitude_column = Some 0.5%Q ∧
  Viewer.cells example_row !! frequency_column = Some 1000%Q ∧
  Forall (λ r, ¬ (Viewer.chemistry r = Viewer.chemistry example_row ∧
                  (∃ a', Viewer.cells r !! Viewer.amplitude_column = Some a' ∧
                         (a' == 0.5)%Q) ∧
                  (∃ f', Viewer.cells r !! frequency_column = Some f' ∧
                         (f' == 1000)%Q))) example_others ∧
  let dfs := frames_of example_tables example_float example_key
               (parsed_files plain_listdir) in
  let numeric_cols := filter (λ c, c ≠ Viewer.chemistry_column)
                        (uniq (mjoin (Viewer.lcolumns <$> dfs))) in
  Viewer.statistics (λ q, q) dfs = Some (example_stats.1, example_stats.2) ∧
  (example_stats.1).*1 = (example_stats.2).*1 ∧
  (∃ n i mrow srow,
     example_stats.1 !! n = Some (i, mrow) ∧
     example_stats.2 !! n = Some (i, srow) ∧
     i.1.1 = Viewer.chemistry example_row ∧ (i.1.2 == 0.5)%Q ∧ (i.2 == 1000)%Q ∧
     srow = ∅ ∧
     (∀ c, srow !! c = None ∧ srow !! c ≠ Some 0%Q) ∧
     (∀ c x, c ∈ numeric_cols → Viewer.cells example_row !! c = Some x →
        ∃ v, mrow !! c = Some v ∧ (v == x)%Q) ∧
     (∃ v, mrow !! frequency_column = Some v ∧ (v == 1000)%Q) ∧
     (∃ v, mrow !! Viewer.amplitude_column = Some v ∧ (v == 0.5)%Q) ∧
     (∀ show_error_bars y_column, y_column ∈ numeric_cols →
        ∃ t k,
          Viewer.add_scatter numeric_cols show_error_bars
            example_stats.1 example_stats.2
            (Viewer.chemistry example_row) i.1.2 y_column = Some t ∧
          length (Viewer.y t) = length (Viewer.x t) ∧
          Viewer.x t !! k = Some (mrow !! frequency_column) ∧
          Viewer.y t !! k = Some (mrow !! y_column) ∧
          Viewer.error_y_visible t = show_error_bars ∧
          match Viewer.error_y_array t with
          | Some array =>
              show_error_bars = true ∧
              length array = length (Viewer.x t) ∧
              array !! k = Some None
          | None => show_error_bars = false
          end)) ∧
  (∀ dfs', dfs' ≠ [] →
     frequency_column ∈ uniq (mjoin (Viewer.lcolumns <$> dfs')) →
     is_Some (Viewer.statistics (λ q, q) dfs')).
Proof.
  split; [exact example_group_data|]. split; [exact example_entry_elem_of|].
  split; [exact example_rows|]. split; [reflexivity|]. split; [reflexivity|].
  split; [exact example_others_differ|].
  exact (C8_single_sample_std_missing example_tables example_float (λ q, q)
           plain_listdir example_results example_key
           example_stats.1 example_stats.2 example_row 0.5 1000 example_others
           example_group_data example_entry_elem_of example_rows
           eq_refl eq_refl example_others_differ).
Defined.
